(** * PostVai chat assistant: the retrieval-and-ranking core of [script.js]

    A shallow embedding of class [RAGChatSystem] (transport with its
    fallback, text normalisation, TF-IDF vectors, cosine ranking, answer
    composition and the time-bounded query cache), followed by the
    properties of the specification that were checked against it.

    Conventions of the embedding.
    - A JavaScript string is its sequence of UTF-16 code units
      ([jsstring]); [length] is therefore [String.prototype.length].
    - A JavaScript number is a real number or one of the three special
      values of IEEE arithmetic ([jsnum]).  Arithmetic on finite numbers
      is exact: rounding, overflow and the sign of zero are not modelled.
      What depends on rounding is settled on the module [Double], which
      replays [createTfIdfVectors] and [cosineSimilarity] on IEEE
      binary64 numbers.
    - A thrown exception is an explicit result ([Throw]); [try]/[catch]
      is the combinator [try_catch].
    - An [async] method is a state transformer over the [world]: the
      query cache, the wall clock and the log of network requests.  One
      call runs from its start to its end; [await] only sequences, and
      the clock moves only while a request is pending.
    - [topK] is a count, a natural number.
    - What the browser provides (the network, the DOM text extraction,
      Unicode lower-casing, [JSON.parse], date formatting) is a variable
      of the section [Host]. *)

From Stdlib Require Import ZArith NArith List String Ascii Reals Lra Lia Psatz.
From Stdlib Require Import DecimalString Sorting.Sorted.
From Stdlib Require Floats.
From stdpp Require Import base option list gmap.

Set Default Proof Using "Type".

(** ** Strings as UTF-16 code units *)

Definition jsstring := list N.

Module Utf16.

(** Code units of a source literal written in UTF-8.  [pending] is the
    number of continuation bytes still expected and [acc] the bits of
    the code point read so far. *)
Definition emit (cp : N) : list N :=
  if (cp <? 65536)%N then [cp]
  else let c := (cp - 65536)%N in
       [(55296 + N.shiftr c 10)%N; (56320 + N.land c 1023)%N].

Fixpoint decode (pending : nat) (acc : N) (bytes : list N) : list N :=
  match bytes with
  | [] => []
  | b :: rest =>
      match pending with
      | O =>
          if (b <? 128)%N then b :: decode O 0%N rest
          else if (b <? 224)%N then decode 1 (N.land b 31) rest
          else if (b <? 240)%N then decode 2 (N.land b 15) rest
          else decode 3 (N.land b 7) rest
      | S k =>
          let acc' := N.lor (N.shiftl acc 6) (N.land b 63) in
          match k with
          | O => emit acc' ++ decode O 0%N rest
          | S _ => decode k acc' rest
          end
      end
  end.

Definition bytes_of (s : string) : list N :=
  map N_of_ascii (list_ascii_of_string s).

Definition of_literal (s : string) : jsstring := decode O 0%N (bytes_of s).

End Utf16.

Definition js (s : string) : jsstring := Utf16.of_literal s.

(** [WhiteSpace] and [LineTerminator] of ECMAScript: what [\s] matches and
    what [trim] strips. *)
Definition is_space (c : N) : bool :=
  ((9 <=? c) && (c <=? 13) || (c =? 32) || (c =? 160) || (c =? 5760)
   || (8192 <=? c) && (c <=? 8202) || (c =? 8232) || (c =? 8233)
   || (c =? 8239) || (c =? 8287) || (c =? 12288) || (c =? 65279))%N.

(** [\w] is [[A-Za-z0-9_]]. *)
Definition is_word (c : N) : bool :=
  ((65 <=? c) && (c <=? 90) || (97 <=? c) && (c <=? 122)
   || (48 <=? c) && (c <=? 57) || (c =? 95))%N.

(** The block [Ѐ-ӿ]. *)
Definition is_cyrillic (c : N) : bool := ((1024 <=? c) && (c <=? 1279))%N.

Fixpoint trimStart (s : jsstring) : jsstring :=
  match s with
  | c :: s' => if is_space c then trimStart s' else s
  | [] => []
  end.

Definition trim (s : jsstring) : jsstring :=
  rev (trimStart (rev (trimStart s))).

Fixpoint starts_with (pat s : jsstring) : bool :=
  match pat, s with
  | [], _ => true
  | _ :: _, [] => false
  | p :: pat', c :: s' => (p =? c)%N && starts_with pat' s'
  end.

(** [s.includes(pat)] *)
Fixpoint includes (s pat : jsstring) : bool :=
  starts_with pat s ||
  match s with
  | [] => false
  | _ :: s' => includes s' pat
  end.

(** [s.replace(/pat/g, rep)] for a literal, non-empty [pat]: the matches
    are taken from the left and do not overlap.  [skip] counts the code
    units of a match that remain to be dropped. *)
Fixpoint replace_go (pat rep : jsstring) (skip : nat) (s : jsstring) : jsstring :=
  match s with
  | [] => []
  | c :: s' =>
      match skip with
      | S k => replace_go pat rep k s'
      | O =>
          if starts_with pat s
          then rep ++ replace_go pat rep (Nat.pred (length pat)) s'
          else c :: replace_go pat rep O s'
      end
  end.

Definition replaceAll (pat rep s : jsstring) : jsstring := replace_go pat rep O s.

(** [s.replace(/\s+/g, ' ')]: [in_run] tells that the previous code unit
    was white space, already replaced. *)
Fixpoint collapse_go (in_run : bool) (s : jsstring) : jsstring :=
  match s with
  | [] => []
  | c :: s' =>
      if is_space c
      then (if in_run then collapse_go true s' else 32%N :: collapse_go true s')
      else c :: collapse_go false s'
  end.

Definition collapse_spaces (s : jsstring) : jsstring := collapse_go false s.

(** [s.split(/\s+/)]: [cur] is the piece being read, reversed. *)
Fixpoint split_go (cur : jsstring) (in_run : bool) (s : jsstring) : list jsstring :=
  match s with
  | [] => [rev cur]
  | c :: s' =>
      if is_space c
      then (if in_run then split_go cur true s' else rev cur :: split_go [] true s')
      else split_go (c :: cur) false s'
  end.

Definition split_spaces (s : jsstring) : list jsstring := split_go [] false s.

(** Decimal digits of a non-negative integer, as [`${n}`] prints it. *)
Definition decimal (n : nat) : jsstring :=
  Utf16.bytes_of (NilZero.string_of_uint (Nat.to_uint n)).

(** A string holds a lone surrogate, on which [encodeURIComponent] throws. *)
Definition is_high (c : N) : bool := ((55296 <=? c) && (c <=? 56319))%N.
Definition is_low (c : N) : bool := ((56320 <=? c) && (c <=? 57343))%N.

Fixpoint lone_surrogate (s : jsstring) : bool :=
  match s with
  | [] => false
  | c :: s' =>
      if is_high c then
        match s' with
        | d :: s'' => if is_low d then lone_surrogate s'' else true
        | [] => true
        end
      else if is_low c then true
      else lone_surrogate s'
  end.

(** ** Numbers *)

(** A number is a real or one of [Infinity], [-Infinity], [NaN]. *)
Inductive jsnum : Type :=
| Num (r : R)
| PInf
| NInf
| NaN.

Module JsNum.

Definition of_nat (n : nat) : jsnum := Num (INR n).

Definition add (a b : jsnum) : jsnum :=
  match a, b with
  | NaN, _ | _, NaN => NaN
  | Num x, Num y => Num (x + y)
  | PInf, NInf | NInf, PInf => NaN
  | PInf, _ | _, PInf => PInf
  | NInf, _ | _, NInf => NInf
  end.

Definition neg (a : jsnum) : jsnum :=
  match a with
  | Num x => Num (- x)
  | PInf => NInf
  | NInf => PInf
  | NaN => NaN
  end.

Definition sub (a b : jsnum) : jsnum := add a (neg b).

(** An infinity times, or over, the finite [x]. *)
Definition scaled (inf : jsnum) (x : R) : jsnum :=
  if Rlt_dec 0 x then inf else if Rlt_dec x 0 then neg inf else NaN.

Definition mul (a b : jsnum) : jsnum :=
  match a, b with
  | NaN, _ | _, NaN => NaN
  | Num x, Num y => Num (x * y)
  | Num x, PInf | PInf, Num x => scaled PInf x
  | Num x, NInf | NInf, Num x => scaled NInf x
  | PInf, PInf | NInf, NInf => PInf
  | PInf, NInf | NInf, PInf => NInf
  end.

Definition div (a b : jsnum) : jsnum :=
  match a, b with
  | NaN, _ | _, NaN => NaN
  | Num x, Num y => if Req_dec_T y 0 then scaled PInf x else Num (x / y)
  | Num _, PInf | Num _, NInf => Num 0
  | PInf, Num y => if Rlt_dec y 0 then NInf else PInf
  | NInf, Num y => if Rlt_dec y 0 then PInf else NInf
  | _, _ => NaN
  end.

(** [Math.sqrt] *)
Definition sqrt (a : jsnum) : jsnum :=
  match a with
  | Num x => if Rlt_dec x 0 then NaN else Num (R_sqrt.sqrt x)
  | PInf => PInf
  | NInf | NaN => NaN
  end.

(** [Math.log] *)
Definition log (a : jsnum) : jsnum :=
  match a with
  | Num x => if Rlt_dec 0 x then Num (ln x)
             else if Rlt_dec x 0 then NaN else NInf
  | PInf => PInf
  | NInf | NaN => NaN
  end.

(** [a > b] *)
Definition gt (a b : jsnum) : bool :=
  match a, b with
  | Num x, Num y => if Rlt_dec y x then true else false
  | PInf, Num _ | PInf, NInf | Num _, NInf => true
  | _, _ => false
  end.

(** [a === 0] *)
Definition is_zero (a : jsnum) : bool :=
  match a with
  | Num x => if Req_dec_T x 0 then true else false
  | _ => false
  end.

Definition finite (a : jsnum) : Prop := exists r, a = Num r.

End JsNum.

(** ** Values and exceptions *)

(** What [response.json()] and [JSON.parse] produce.  The fields of an
    object are its own properties in creation order. *)
#[local] Unset Elimination Schemes.
Inductive json : Type :=
| JNull
| JBool (b : bool)
| JNum (r : R)
| JStr (s : jsstring)
| JArr (items : list json)
| JObj (fields : list (jsstring * json)).
#[local] Set Elimination Schemes.

(** A value read from a property: [None] is [undefined]. *)
Definition jsval := option json.

Definition truthy (v : json) : bool :=
  match v with
  | JNull => false
  | JBool b => b
  | JNum r => if Req_dec_T r 0 then false else true
  | JStr s => match s with [] => false | _ :: _ => true end
  | JArr _ | JObj _ => true
  end.

Definition truthy_val (v : jsval) : bool :=
  match v with
  | Some j => truthy j
  | None => false
  end.

Fixpoint lookup_field (fields : list (jsstring * json)) (key : jsstring) : jsval :=
  match fields with
  | [] => None
  | (k, v) :: rest => if decide (k = key) then Some v else lookup_field rest key
  end.

(** An exception: an [Error] object with its [message], or the
    [TypeError] the engine raises on a property of [null] or
    [undefined] and on a call of what is not a function, or the
    [URIError] of [encodeURIComponent].  Only the message of the first
    kind is ever inspected. *)
Inductive exn : Type :=
| Error (message : jsstring)
| TypeError
| URIError.

Inductive result (A : Type) : Type :=
| Ok (a : A)
| Throw (e : exn).
Arguments Ok {A} a.
Arguments Throw {A} e.

(** [v.key], for the names read by this program ([title], [content],
    [rendered], [contents], [excerpt], [link], [date]): none of them is
    a property of a primitive wrapper or of an array. *)
Definition get_prop (v : jsval) (key : jsstring) : result jsval :=
  match v with
  | None | Some JNull => Throw TypeError
  | Some (JObj fields) => Ok (lookup_field fields key)
  | Some _ => Ok None
  end.

(** [v?.key] *)
Definition get_prop_opt (v : jsval) (key : jsstring) : jsval :=
  match v with
  | Some (JObj fields) => lookup_field fields key
  | _ => None
  end.

(** [v || ''] *)
Definition or_empty (v : jsval) : json :=
  match v with
  | Some j => if truthy j then j else JStr []
  | None => JStr []
  end.

(** [v.length] of a value that is not [null] or [undefined]. *)
Definition get_length (v : json) : jsval :=
  match v with
  | JArr items => Some (JNum (INR (length items)))
  | JStr s => Some (JNum (INR (length s)))
  | JObj fields => lookup_field fields (js "length")
  | _ => None
  end.

(** [v === 0] *)
Definition is_zero_val (v : jsval) : bool :=
  match v with
  | Some (JNum r) => if Req_dec_T r 0 then true else false
  | _ => false
  end.

(** [!posts || posts.length === 0] *)
Definition no_candidates (posts : json) : bool :=
  negb (truthy posts) || is_zero_val (get_length posts).

(** [!question || question.trim().length < 3] *)
Definition too_short_question (question : jsstring) : bool :=
  bool_decide (question = []) || (length (trim question) <? 3)%nat.

(** ** The data of [RAGChatSystem] *)

(** One entry of the array [similarities] of [rankRelevantPosts]. *)
Record scored : Type := mkScored {
  index : nat;
  similarity : jsnum;
  post : jsval
}.

(** [{ ...item.post, similarity_score: item.similarity }] *)
Record ranked_post : Type := mkRanked {
  spread_of : jsval;
  similarity_score : jsnum
}.

(** A property other than [similarity_score] of a ranked post: the
    spread copies the own properties of an object; of an array or a
    string it copies the indices only, of anything else nothing. *)
Definition ranked_get (p : ranked_post) (key : jsstring) : jsval :=
  match spread_of p with
  | Some (JObj fields) => lookup_field fields key
  | _ => None
  end.

Record source : Type := mkSource {
  title : jsstring;
  link : json;
  source_similarity : jsnum;
  date : jsstring
}.

Record response : Type := mkResponse {
  answer : jsstring;
  sources : list source
}.

(** A value of the map [queryCache]. *)
Record cache_entry : Type := mkEntry {
  cached_response : response;
  timestamp : Z
}.

(** The two requests the transport issues, with the search text they
    carry: the direct one to [apiBaseUrl/posts] and the one through the
    relay. *)
Inductive request : Type :=
| GetPosts (search : jsstring)
| GetViaProxy (search : jsstring).

(** How [fetch] settles: rejected with an error of the given message, or
    resolved to a response with its status and with what [json()] on
    it settles to. *)
Inductive fetch_outcome : Type :=
| NetFailure (message : jsstring)
| HttpResponse (status : nat) (body : result json).

(** [response.ok] *)
Definition response_ok (status : nat) : bool :=
  (200 <=? status)%nat && (status <=? 299)%nat.

(** The state an [async] method of the instance runs in. *)
Record world : Type := mkWorld {
  queryCache : gmap jsstring cache_entry;
  clock : Z;
  requests : list request
}.

Definition M (A : Type) : Type := world -> result A * world.

Definition ret {A} (a : A) : M A := fun w => (Ok a, w).

Definition throw {A} (e : exn) : M A := fun w => (Throw e, w).

Definition bind {A B} (m : M A) (k : A -> M B) : M B :=
  fun w =>
    match m w with
    | (Ok a, w') => k a w'
    | (Throw e, w') => (Throw e, w')
    end.

Definition try_catch {A} (m : M A) (handler : exn -> M A) : M A :=
  fun w =>
    match m w with
    | (Ok a, w') => (Ok a, w')
    | (Throw e, w') => handler e w'
    end.

Definition lift {A} (r : result A) : M A := fun w => (r, w).

Notation "'await' x ':=' m 'in' k" := (bind m (fun x => k))
  (at level 10, x name, m at level 100, k at level 200).

(** [Date.now()] *)
Definition Date_now : M Z := fun w => (Ok (clock w), w).

(** [this.queryCache.get(key)] *)
Definition cache_get (key : jsstring) : M (option cache_entry) :=
  fun w => (Ok (queryCache w !! key), w).

(** [this.queryCache.set(key, entry)] *)
Definition cache_set (key : jsstring) (entry : cache_entry) : M unit :=
  fun w => (Ok tt, mkWorld (<[key := entry]> (queryCache w)) (clock w) (requests w)).

(** [this.cacheExpiry] *)
Definition cacheExpiry : Z := 30 * 60 * 1000.

(** The pure counterpart of [bind], for the synchronous methods. *)
Definition rbind {A B} (r : result A) (k : A -> result B) : result B :=
  match r with
  | Ok a => k a
  | Throw e => Throw e
  end.

Fixpoint map_result {A B} (f : A -> result B) (l : list A) : result (list B) :=
  match l with
  | [] => Ok []
  | x :: l' => rbind (f x) (fun y => rbind (map_result f l') (fun ys => Ok (y :: ys)))
  end.

(** [Array.prototype.sort(cmp)]: the order is stable and, for a
    comparator that is a consistent ordering, determined by it.  [x] is
    put before the first element it does not sort after. *)
Fixpoint sort_insert {A} (cmp : A -> A -> jsnum) (x : A) (l : list A) : list A :=
  match l with
  | [] => [x]
  | y :: l' =>
      if JsNum.gt (cmp x y) (Num 0) then y :: sort_insert cmp x l' else x :: l
  end.

Definition sort {A} (cmp : A -> A -> jsnum) (l : list A) : list A :=
  foldr (sort_insert cmp) [] l.

(** [vectors.pop()]: the rest of the array and the element removed. *)
Definition pop {A} (l : list A) : list A * option A :=
  (removelast l, last l).

(** [arr.join(sep)] *)
Fixpoint join (sep : jsstring) (parts : list jsstring) : jsstring :=
  match parts with
  | [] => []
  | [p] => p
  | p :: rest => p ++ sep ++ join sep rest
  end.

(** ** The methods of [RAGChatSystem] *)

Section Host.

(** The network: how the [fetch] of a request settles, given the
    requests issued before it and the clock when it is issued, and
    the clock when it has settled. *)
Variable fetch : request -> list request -> Z -> fetch_outcome * Z.

(** The DOM: [tempDiv.textContent || tempDiv.innerText || ""] once
    [htmlText] is parsed into [tempDiv] and its [script] and [style]
    elements are removed; or the exception a DOM call raises (in a
    browser none does). *)
Variable visibleText : json -> result jsstring.

(** [String.prototype.toLowerCase] *)
Variable toLowerCase : jsstring -> jsstring.

(** [JSON.parse] of a value (converted to a string first). *)
Variable JSON_parse : json -> result json.

(** [new Date(v).toLocaleDateString('bg-BG')] *)
Variable toLocaleDateString : json -> jsstring.

(** The text of [error.message] for an error raised by the engine
    itself. *)
Variable engine_message : exn -> jsstring.

Definition message_of (error : exn) : jsstring :=
  match error with
  | Error message => message
  | _ => engine_message error
  end.

(** [fetch(...)], awaited. *)
Definition do_fetch (rq : request) : M fetch_outcome :=
  fun w =>
    let '(outcome, settled) := fetch rq (requests w) (clock w) in
    (Ok outcome, mkWorld (queryCache w) settled (requests w ++ [rq])).

(** [response.json()], awaited, or the rejection of [fetch]. *)
Definition settle (outcome : fetch_outcome) : result (nat * result json) :=
  match outcome with
  | NetFailure message => Throw (Error message)
  | HttpResponse status body => Ok (status, body)
  end.

Definition cleanHtml (htmlText : json) : result jsstring :=
  if negb (truthy htmlText) then Ok []
  else
    rbind (visibleText htmlText) (fun text =>
    let text := replaceAll (js "&nbsp;") (js " ") text in
    let text := replaceAll (js "&amp;") (js "&") text in
    let text := replaceAll (js "&lt;") (js "<") text in
    let text := replaceAll (js "&gt;") (js ">") text in
    let text := replaceAll (js "&quot;") [34%N] text in
    let text := replaceAll (js "&#039;") (js "'") text in
    let text := replaceAll (js "&hellip;") (js "...") text in
    Ok (trim (collapse_spaces text))).

Definition preprocessText (text : jsstring) : list jsstring :=
  let lowered := toLowerCase text in
  let kept := map (fun c => if is_cyrillic c || is_word c || is_space c
                            then c else 32%N) lowered in
  filter (fun word => 2 < length word)
         (split_spaces (trim (collapse_spaces kept))).

(** [new Set(...)] then [Array.from]: the distinct tokens in the order
    of their first occurrence. *)
Definition set_add (seen : list jsstring) (word : jsstring) : list jsstring :=
  if decide (word ∈ seen) then seen else seen ++ [word].

Definition vocabulary_of (processedDocs : list (list jsstring)) : list jsstring :=
  foldl set_add [] (concat processedDocs).

Definition docFreq_of (processedDocs : list (list jsstring)) (word : jsstring) : nat :=
  length (filter (fun doc : list jsstring => word ∈ doc) processedDocs).

Definition idfMap_of (processedDocs : list (list jsstring))
    (vocabArray : list jsstring) : gmap jsstring jsnum :=
  let docCount := length processedDocs in
  foldl (fun (idfMap : gmap jsstring jsnum) word =>
           let docFreq := docFreq_of processedDocs word in
           <[word := JsNum.log (JsNum.div (JsNum.of_nat docCount)
                                 (JsNum.add (Num 1) (JsNum.of_nat docFreq)))]> idfMap)
        ∅ vocabArray.

Definition wordCount_of (words : list jsstring) : gmap jsstring nat :=
  foldl (fun (wordCount : gmap jsstring nat) word =>
           <[word := (default 0 (wordCount !! word) + 1)%nat]> wordCount)
        ∅ words.

(** [idfMap.get(word)] as an operand: [undefined] is [NaN] there. *)
Definition idf_get (idfMap : gmap jsstring jsnum) (word : jsstring) : jsnum :=
  default NaN (idfMap !! word).

Definition vector_of (idfMap : gmap jsstring jsnum) (vocabArray : list jsstring)
    (words : list jsstring) : list jsnum :=
  let wordCount := wordCount_of words in
  foldl (fun (vector : list jsnum) '(index, word) =>
           match wordCount !! word with
           | Some count =>
               let tf := JsNum.div (JsNum.of_nat count) (JsNum.of_nat (length words)) in
               <[index := JsNum.mul tf (idf_get idfMap word)]> vector
           | None => vector
           end)
        (replicate (length vocabArray) (Num 0))
        (imap pair vocabArray).

Definition createTfIdfVectors (documents : list jsstring)
    : list (list jsnum) * list jsstring :=
  let processedDocs := map preprocessText documents in
  let vocabArray := vocabulary_of processedDocs in
  let idfMap := idfMap_of processedDocs vocabArray in
  (map (vector_of idfMap vocabArray) processedDocs, vocabArray).

(** [vec[i]] as an operand: past the end it is [undefined], that is
    [NaN]. *)
Definition at_index (vec : list jsnum) (i : nat) : jsnum :=
  default NaN (vec !! i).

Definition cosine_step (vecA vecB : list jsnum) (acc : jsnum * jsnum * jsnum)
    (i : nat) : jsnum * jsnum * jsnum :=
  let '(dotProduct, normA, normB) := acc in
  (JsNum.add dotProduct (JsNum.mul (at_index vecA i) (at_index vecB i)),
   JsNum.add normA (JsNum.mul (at_index vecA i) (at_index vecA i)),
   JsNum.add normB (JsNum.mul (at_index vecB i) (at_index vecB i))).

Definition cosineSimilarity (vecA vecB : list jsnum) : jsnum :=
  let '(dotProduct, normA, normB) :=
    foldl (cosine_step vecA vecB) (Num 0, Num 0, Num 0) (seq 0 (length vecA)) in
  if JsNum.is_zero normA || JsNum.is_zero normB then Num 0
  else JsNum.div dotProduct (JsNum.mul (JsNum.sqrt normA) (JsNum.sqrt normB)).

(** The text of one post, [`${title} ${content}`]. *)
Definition post_text (post : json) : result jsstring :=
  rbind (get_prop (Some post) (js "title")) (fun t =>
  rbind (cleanHtml (or_empty (get_prop_opt t (js "rendered")))) (fun title =>
  rbind (get_prop (Some post) (js "content")) (fun c =>
  rbind (cleanHtml (or_empty (get_prop_opt c (js "rendered")))) (fun content =>
  Ok (title ++ [32%N] ++ content))))).

(** The array [similarities] before it is sorted; [posts.map] is not a
    function unless [posts] is an array, and [vecA.length] throws on
    the [undefined] that [pop] gives on an empty array. *)
Definition similarities_of (query : jsstring) (posts : json) : result (list scored) :=
  match posts with
  | JArr items =>
      rbind (map_result post_text items) (fun postTexts =>
      let allTexts := postTexts ++ [query] in
      let '(vectors, queryVector) := pop (fst (createTfIdfVectors allTexts)) in
      map_result (fun '(index, postVector) =>
                    match queryVector with
                    | Some queryVector =>
                        Ok (mkScored index (cosineSimilarity queryVector postVector)
                                     (items !! index))
                    | None => Throw TypeError
                    end)
                 (imap pair vectors))
  | _ => Throw TypeError
  end.

Definition by_similarity (a b : scored) : jsnum :=
  JsNum.sub (similarity b) (similarity a).

Definition rankRelevantPosts (query : jsstring) (posts : json) (topK : nat)
    : list ranked_post :=
  if no_candidates posts then []
  else
    match similarities_of query posts with
    | Ok similarities =>
        let similarities := sort by_similarity similarities in
        map (fun item => mkRanked (post item) (similarity item))
            (take topK
               (filter (fun item => JsNum.gt (similarity item) (Num (1 / 100)))
                       similarities))
    | Throw _ => []
    end.


(** [x || 0] on a number. *)
Definition or_zero (x : jsnum) : jsnum :=
  match x with
  | NaN => Num 0
  | Num r => if Req_dec_T r 0 then Num 0 else x
  | _ => x
  end.

Definition source_of (p : ranked_post) : result source :=
  rbind (cleanHtml (or_empty (get_prop_opt (ranked_get p (js "title")) (js "rendered"))))
        (fun title =>
  Ok (mkSource title
               (or_empty (ranked_get p (js "link")))
               (or_zero (similarity_score p))
               (match ranked_get p (js "date") with
                | Some d => if truthy d then toLocaleDateString d else []
                | None => []
                end))).

(** The two parts one pass of [relevantPosts.forEach] pushes. *)
Definition answer_part '((index, p) : nat * ranked_post) : result (list jsstring) :=
  rbind (cleanHtml (or_empty (get_prop_opt (ranked_get p (js "title")) (js "rendered"))))
        (fun title =>
  rbind (cleanHtml (or_empty (get_prop_opt (ranked_get p (js "excerpt")) (js "rendered"))))
        (fun excerpt =>
  Ok [ [10%N] ++ js "**" ++ decimal (index + 1) ++ js ". " ++ title ++ js "**";
       match excerpt with
       | [] => js "Няма налично резюме."
       | _ :: _ => excerpt
       end ])).

(** The fixed response for an empty ranking. *)
Definition no_relevant : response :=
  mkResponse
    (js "За съжаление не намерих релевантна информация по този въпрос в публикациите на PostVai.com. Моля, опитайте с различни ключови думи.")
    [].

Definition generateResponse (query : jsstring) (relevantPosts : list ranked_post)
    : result response :=
  match relevantPosts with
  | [] => Ok no_relevant
  | _ :: _ =>
      rbind (map_result source_of relevantPosts) (fun sources =>
      rbind (map_result answer_part (imap pair relevantPosts)) (fun parts =>
      let answerParts :=
        [ js "🔍 Намерих " ++ decimal (length relevantPosts)
            ++ js " релевантни публикации, които може да отговорят на въпроса ви:" ]
        ++ concat parts
        ++ [ [10%N] ++ js "📚 За пълна информация, моля посетете линковете към публикациите." ] in
      Ok (mkResponse (join [10%N] answerParts) sources)))
  end.

(** [encodeURIComponent] of the target address: the fixed text around
    the search text has no surrogate, so a lone one can only come
    from [query]. *)
Definition encodeTarget (query : jsstring) : result unit :=
  if lone_surrogate query then Throw URIError else Ok tt.

Definition searchWithCorsProxy (query : jsstring) : M json :=
  try_catch
    (await target := lift (encodeTarget query) in
     await outcome := do_fetch (GetViaProxy query) in
     await response := lift (settle outcome) in
     await data := lift (snd response) in
     await contents := lift (get_prop (Some data) (js "contents")) in
     match contents with
     | Some c =>
         if truthy c then lift (JSON_parse c)
         else throw (Error (js "Празен отговор от CORS proxy"))
     | None => throw (Error (js "Празен отговор от CORS proxy"))
     end)
    (fun error => ret (JArr [])).

Definition network_class (message : jsstring) : bool :=
  includes message (js "CORS") || includes message (js "NetworkError")
  || includes message (js "Failed to fetch").

Definition searchPosts (query : jsstring) : M json :=
  try_catch
    (await outcome := do_fetch (GetPosts query) in
     await response := lift (settle outcome) in
     if negb (response_ok (fst response))
     then throw (Error (js "HTTP " ++ decimal (fst response)))
     else lift (snd response))
    (fun error =>
       if network_class (message_of error)
       then searchWithCorsProxy query
       else throw (Error (js "Не мога да извърша търсене в момента."))).

Definition too_short : response :=
  mkResponse (js "Моля, задайте по-конкретен въпрос (поне 3 символа).") [].

Definition no_posts : response :=
  mkResponse (js "Не открих публикации, свързани с вашето търсене.") [].

Definition technical_error : response :=
  mkResponse (js "Възникна техническа грешка при търсенето. Моля, опитайте отново.") [].

(** [cached && (Date.now() - cached.timestamp < this.cacheExpiry)] *)
Definition fresh (now : Z) (cached : option cache_entry) : bool :=
  match cached with
  | Some entry => (now - timestamp entry <? cacheExpiry)%Z
  | None => false
  end.

(** The [try] block of [processQuery] with its [catch]. *)
Definition answer_query (question : jsstring) : M response :=
  try_catch
    (if too_short_question question
     then ret too_short
     else
       await posts := searchPosts question in
       if no_candidates posts
       then ret no_posts
       else
         let rankedPosts := rankRelevantPosts question posts 5 in
         await response := lift (generateResponse question rankedPosts) in
         await now := Date_now in
         await stored := cache_set question (mkEntry response now) in
         ret response)
    (fun error => ret technical_error).

Definition processQuery (question : jsstring) : M response :=
  await cached := cache_get question in
  await now := Date_now in
  match cached with
  | Some entry =>
      if fresh now cached then ret (cached_response entry)
      else answer_query question
  | None => answer_query question
  end.

End Host.

(** * Properties *)

(** ** Arithmetic on finite numbers *)

Module JsNumFacts.
Import JsNum.
Local Open Scope R_scope.

Lemma add_num (x y : R) : add (Num x) (Num y) = Num (x + y).
Proof. reflexivity. Qed.

Lemma mul_num (x y : R) : mul (Num x) (Num y) = Num (x * y).
Proof. reflexivity. Qed.

Lemma sub_num (x y : R) : sub (Num x) (Num y) = Num (x - y).
Proof. unfold sub; simpl. f_equal. Qed.

Lemma div_num (x y : R) : y <> 0 -> div (Num x) (Num y) = Num (x / y).
Proof. intros Hy. unfold div. destruct (Req_dec_T y 0); [contradiction | reflexivity]. Qed.

Lemma sqrt_num (x : R) : 0 <= x -> sqrt (Num x) = Num (R_sqrt.sqrt x).
Proof. intros Hx. unfold sqrt. destruct (Rlt_dec x 0); [lra | reflexivity]. Qed.

Lemma log_num (x : R) : 0 < x -> log (Num x) = Num (ln x).
Proof. intros Hx. unfold log. destruct (Rlt_dec 0 x); [reflexivity | lra]. Qed.

Lemma is_zero_num (x : R) : is_zero (Num x) = true <-> x = 0.
Proof. unfold is_zero. destruct (Req_dec_T x 0); split; intros; congruence. Qed.

Lemma is_zero_false (x : R) : is_zero (Num x) = false <-> x <> 0.
Proof. unfold is_zero. destruct (Req_dec_T x 0); split; intros; congruence. Qed.

Lemma gt_num (x y : R) : gt (Num x) (Num y) = true <-> y < x.
Proof. unfold gt. destruct (Rlt_dec y x); split; intros; try congruence; lra. Qed.

End JsNumFacts.

(** ** Sums over index lists and the Cauchy-Schwarz inequality *)

Module Sums.
Local Open Scope R_scope.

Fixpoint sum_over (l : list nat) (f : nat -> R) : R :=
  match l with
  | [] => 0
  | i :: l' => f i + sum_over l' f
  end.

Lemma sum_over_nonneg (l : list nat) (f : nat -> R) :
  (forall i, In i l -> 0 <= f i) -> 0 <= sum_over l f.
Proof.
  induction l as [|i l IH]; simpl; intros H; [lra|].
  assert (0 <= f i) by (apply H; now left).
  assert (0 <= sum_over l f) by (apply IH; intros; apply H; now right).
  lra.
Qed.

Lemma sum_over_zero (l : list nat) (f : nat -> R) :
  (forall i, In i l -> f i = 0) -> sum_over l f = 0.
Proof.
  induction l as [|i l IH]; simpl; intros H; [reflexivity|].
  rewrite (H i) by now left. rewrite IH; [lra|]. intros; apply H; now right.
Qed.

Lemma sum_squares_nonneg (l : list nat) (f : nat -> R) :
  0 <= sum_over l (fun i => f i * f i).
Proof. apply sum_over_nonneg. intros; nra. Qed.

(** One step of the induction: adding the pair [(x, y)] to sums that
    already satisfy the inequality. *)
Lemma cauchy_step (x y D A B : R) :
  0 <= A -> 0 <= B -> D * D <= A * B ->
  (x * y + D) * (x * y + D) <= (x * x + A) * (y * y + B).
Proof.
  intros HA HB HD.
  set (S := x * x * B + y * y * A).
  set (T := 2 * (x * y) * D).
  assert (HS : 0 <= S) by (unfold S; nra).
  assert (HTS : T * T <= S * S).
  { unfold S, T.
    assert (H1 : 4 * (x * x) * (y * y) * (D * D) <= 4 * (x * x) * (y * y) * (A * B)).
    { apply Rmult_le_compat_l; [nra | exact HD]. }
    pose proof (Rle_0_sqr (x * x * B - y * y * A)) as Hsq.
    unfold Rsqr in Hsq.
    replace (2 * (x * y) * D * (2 * (x * y) * D))
      with (4 * (x * x) * (y * y) * (D * D)) by ring.
    lra. }
  assert (HT : T <= S).
  { destruct (Rle_or_lt T S) as [|Hlt]; [assumption|]. exfalso. nra. }
  unfold S, T in HT. nra.
Qed.

Theorem cauchy_schwarz (l : list nat) (f g : nat -> R) :
  let D := sum_over l (fun i => f i * g i) in
  D * D <= sum_over l (fun i => f i * f i) * sum_over l (fun i => g i * g i).
Proof.
  induction l as [|i l IH]; simpl in *; [lra|].
  apply cauchy_step; auto using sum_squares_nonneg.
Qed.

(** Sum of the squares of the components, and the Euclidean norm. *)
Fixpoint sum_squares (v : list R) : R :=
  match v with
  | [] => 0
  | x :: v' => x * x + sum_squares v'
  end.

Definition euclidean_norm (v : list R) : R := sqrt (sum_squares v).

Lemma sum_squares_ge0 (v : list R) : 0 <= sum_squares v.
Proof. induction v; simpl; nra. Qed.

Lemma zero_norm_all_zero (v : list R) :
  euclidean_norm v = 0 -> Forall (fun x => x = 0) v.
Proof.
  unfold euclidean_norm. intros H.
  apply sqrt_eq_0 in H; [|apply sum_squares_ge0].
  induction v as [|x v IH]; constructor; simpl in H;
    pose proof (sum_squares_ge0 v); [nra | apply IH; nra].
Qed.

End Sums.

(** ** The loop of [cosineSimilarity] *)

Module CosineFacts.
Import JsNum JsNumFacts Sums.
Local Open Scope R_scope.

(** One of the three accumulators of the loop. *)
Definition acc_sum (u v : list jsnum) (init : jsnum) (l : list nat) : jsnum :=
  foldl (fun acc i => add acc (mul (at_index u i) (at_index v i))) init l.

Lemma cosine_fold (vecA vecB : list jsnum) (l : list nat) :
  forall d na nb,
    foldl (cosine_step vecA vecB) (d, na, nb) l
    = (acc_sum vecA vecB d l, acc_sum vecA vecA na l, acc_sum vecB vecB nb l).
Proof.
  induction l as [|i l IH]; intros d na nb; [reflexivity|].
  unfold acc_sum in *. simpl. rewrite IH. reflexivity.
Qed.

Lemma cosine_unfold (vecA vecB : list jsnum) :
  cosineSimilarity vecA vecB
  = let l := seq 0 (length vecA) in
    if is_zero (acc_sum vecA vecA (Num 0) l) || is_zero (acc_sum vecB vecB (Num 0) l)
    then Num 0
    else div (acc_sum vecA vecB (Num 0) l)
             (mul (sqrt (acc_sum vecA vecA (Num 0) l))
                  (sqrt (acc_sum vecB vecB (Num 0) l))).
Proof. unfold cosineSimilarity. rewrite cosine_fold. reflexivity. Qed.

Lemma at_index_Some (u : list jsnum) (i : nat) (x : jsnum) :
  u !! i = Some x -> at_index u i = x.
Proof. unfold at_index. now intros ->. Qed.

(** On indices where both vectors hold finite numbers the accumulator
    is the real sum. *)
Lemma acc_sum_finite (u v : list jsnum) (f g : nat -> R) (l : list nat) :
  (forall i, In i l -> u !! i = Some (Num (f i)) /\ v !! i = Some (Num (g i))) ->
  forall s, acc_sum u v (Num s) l = Num (s + sum_over l (fun i => f i * g i)).
Proof.
  unfold acc_sum.
  induction l as [|i l IH]; intros H s; cbn [foldl sum_over].
  - f_equal. lra.
  - destruct (H i (or_introl eq_refl)) as [Hu Hv].
    rewrite (at_index_Some _ _ _ Hu), (at_index_Some _ _ _ Hv). cbn [mul add].
    rewrite IH by (intros; apply H; now right).
    f_equal. lra.
Qed.

Lemma lookup_map_Num (a : list R) (i : nat) :
  (i < length a)%nat -> map Num a !! i = Some (Num (nth i a 0)).
Proof.
  revert i. induction a as [|x a IH]; intros [|i] H; simpl in *; try lia; auto.
  apply IH. lia.
Qed.

Lemma in_seq_lt (i n : nat) : In i (seq 0 n) -> (i < n)%nat.
Proof. rewrite in_seq. lia. Qed.

Lemma sum_squares_seq (a : list R) :
  sum_over (seq 0 (length a)) (fun i => nth i a 0 * nth i a 0) = sum_squares a.
Proof.
  induction a as [|x a IH]; [reflexivity|].
  cbn [length seq sum_over sum_squares nth]. rewrite <- IH. f_equal.
  rewrite <- seq_shift. clear IH.
  generalize (seq 0 (length a)) as l. induction l as [|i l IHl]; simpl; [reflexivity|].
  now rewrite IHl.
Qed.

(** The three sums the loop computes on two finite vectors, the second
    at least as long as the first. *)
Definition dot_of (a b : list R) : R :=
  sum_over (seq 0 (length a)) (fun i => nth i a 0 * nth i b 0).
Definition normB_of (a b : list R) : R :=
  sum_over (seq 0 (length a)) (fun i => nth i b 0 * nth i b 0).

Lemma cosine_finite (a b : list R) :
  (length a <= length b)%nat ->
  cosineSimilarity (map Num a) (map Num b)
  = if is_zero (Num (sum_squares a)) || is_zero (Num (normB_of a b))
    then Num 0
    else Num (dot_of a b / (R_sqrt.sqrt (sum_squares a) * R_sqrt.sqrt (normB_of a b))).
Proof.
  intros Hlen. rewrite cosine_unfold. cbv zeta. rewrite length_map.
  assert (Ha : forall i, In i (seq 0 (length a)) ->
                 map Num a !! i = Some (Num (nth i a 0))).
  { intros i Hi. apply lookup_map_Num. now apply in_seq_lt. }
  assert (Hb : forall i, In i (seq 0 (length a)) ->
                 map Num b !! i = Some (Num (nth i b 0))).
  { intros i Hi. apply lookup_map_Num. apply in_seq_lt in Hi. lia. }
  rewrite (acc_sum_finite _ _ (fun i => nth i a 0) (fun i => nth i a 0)) by auto.
  rewrite (acc_sum_finite _ _ (fun i => nth i b 0) (fun i => nth i b 0)) by auto.
  rewrite (acc_sum_finite _ _ (fun i => nth i a 0) (fun i => nth i b 0)) by auto.
  rewrite !Rplus_0_l, sum_squares_seq. fold (normB_of a b). fold (dot_of a b).
  destruct (is_zero (Num (sum_squares a))) eqn:EA; [reflexivity|].
  destruct (is_zero (Num (normB_of a b))) eqn:EB; [reflexivity|].
  cbn [orb]. apply is_zero_false in EA, EB.
  pose proof (sum_squares_ge0 a) as HA.
  assert (HB : 0 <= normB_of a b) by apply sum_squares_nonneg.
  rewrite !sqrt_num by assumption. rewrite mul_num.
  apply div_num.
  assert (0 < R_sqrt.sqrt (sum_squares a)) by (apply sqrt_lt_R0; lra).
  assert (0 < R_sqrt.sqrt (normB_of a b)) by (apply sqrt_lt_R0; lra).
  nra.
Qed.

(** When the components agree in sign position by position, the
    similarity lies between 0 and 1. *)
Lemma cosine_bounds (a b : list R) :
  (length a <= length b)%nat ->
  (forall i, (i < length a)%nat -> 0 <= nth i a 0 * nth i b 0) ->
  exists r, cosineSimilarity (map Num a) (map Num b) = Num r /\ 0 <= r <= 1.
Proof.
  intros Hlen Hsign. rewrite cosine_finite by assumption.
  destruct (is_zero (Num (sum_squares a))) eqn:EA; [exists 0; split; [reflexivity | lra]|].
  destruct (is_zero (Num (normB_of a b))) eqn:EB; [exists 0; split; [reflexivity | lra]|].
  cbn [orb]. eexists; split; [reflexivity|].
  apply is_zero_false in EA, EB.
  pose proof (sum_squares_ge0 a) as HA.
  assert (HB : 0 <= normB_of a b) by apply sum_squares_nonneg.
  assert (HD : 0 <= dot_of a b).
  { apply sum_over_nonneg. intros i Hi. apply Hsign. now apply in_seq_lt. }
  pose proof (cauchy_schwarz (seq 0 (length a)) (fun i => nth i a 0) (fun i => nth i b 0)) as CS.
  cbv zeta in CS. rewrite sum_squares_seq in CS. fold (dot_of a b) (normB_of a b) in CS.
  set (na := sum_squares a) in *. set (nb := normB_of a b) in *. set (D := dot_of a b) in *.
  assert (Hsa : 0 < R_sqrt.sqrt na) by (apply sqrt_lt_R0; lra).
  assert (Hsb : 0 < R_sqrt.sqrt nb) by (apply sqrt_lt_R0; lra).
  assert (Hden : 0 < R_sqrt.sqrt na * R_sqrt.sqrt nb) by nra.
  split.
  - apply Rmult_le_pos; [assumption|]. left. now apply Rinv_0_lt_compat.
  - apply (Rmult_le_reg_r (R_sqrt.sqrt na * R_sqrt.sqrt nb)); [assumption|].
    unfold Rdiv. rewrite Rmult_assoc, Rinv_l by lra. rewrite Rmult_1_r, Rmult_1_l.
    rewrite <- sqrt_mult by lra.
    rewrite <- (sqrt_Rsqr D) by assumption.
    apply sqrt_le_1; unfold Rsqr; nra.
Qed.

End CosineFacts.

(** ** The maps and vectors of [createTfIdfVectors] *)

Module VectorFacts.
Import JsNum JsNumFacts.

(** Occurrences of [word] in a token sequence. *)
Definition count_of (word : jsstring) (words : list jsstring) : nat :=
  length (filter (fun x => x = word) words).

Lemma count_of_cons (word x : jsstring) (words : list jsstring) :
  count_of word (x :: words)
  = if decide (x = word) then S (count_of word words) else count_of word words.
Proof. unfold count_of. rewrite filter_cons. now destruct (decide (x = word)). Qed.

Lemma count_of_pos (word : jsstring) (words : list jsstring) :
  (0 < count_of word words)%nat <-> word ∈ words.
Proof.
  induction words as [|x words IH].
  - split; [cbn; lia | intros H; inversion H].
  - rewrite count_of_cons, elem_of_cons. destruct (decide (x = word)) as [->|Hne].
    + split; [now left | lia].
    + rewrite IH. split; [now right | intros [->|]; [contradiction | assumption]].
Qed.

Lemma count_of_le_length (word : jsstring) (words : list jsstring) :
  (count_of word words <= length words)%nat.
Proof. unfold count_of. apply length_filter. Qed.

Lemma wordCount_fold (words : list jsstring) :
  forall (m : gmap jsstring nat) (word : jsstring),
    foldl (fun (wordCount : gmap jsstring nat) w =>
             <[w := (default 0 (wordCount !! w) + 1)%nat]> wordCount) m words !! word
    = match count_of word words with
      | O => m !! word
      | S c => Some (default 0 (m !! word) + S c)%nat
      end.
Proof.
  induction words as [|x words IH]; intros m word; [reflexivity|].
  cbn [foldl]. rewrite IH, count_of_cons.
  destruct (decide (x = word)) as [->|Hne].
  - rewrite lookup_insert_eq.
    destruct (count_of word words); simpl; f_equal; lia.
  - rewrite lookup_insert_ne by assumption. reflexivity.
Qed.

(** [wordCount] holds exactly the words of the document, each with
    its number of occurrences. *)
Lemma wordCount_lookup (words : list jsstring) (word : jsstring) :
  wordCount_of words !! word
  = match count_of word words with
    | O => None
    | S c => Some (S c)
    end.
Proof.
  unfold wordCount_of. rewrite wordCount_fold, lookup_empty.
  now destruct (count_of word words).
Qed.

Lemma insert_fold_lookup {V} (F : jsstring -> V) (l : list jsstring) :
  forall (m : gmap jsstring V) (word : jsstring),
    foldl (fun (acc : gmap jsstring V) w => <[w := F w]> acc) m l !! word
    = if decide (word ∈ l) then Some (F word) else m !! word.
Proof.
  induction l as [|x l IH]; intros m word; cbn [foldl].
  - destruct (decide (word ∈ [])) as [H|]; [inversion H | reflexivity].
  - rewrite IH. destruct (decide (word ∈ l)) as [Hin|Hnin].
    + rewrite decide_True by (now right). reflexivity.
    + destruct (decide (x = word)) as [->|Hne].
      * rewrite lookup_insert_eq, decide_True by (now left). reflexivity.
      * rewrite lookup_insert_ne by assumption.
        rewrite decide_False; [reflexivity|].
        rewrite elem_of_cons. intros [->|]; contradiction.
Qed.

(** The value [idfMap] holds for a term. *)
Definition idf_value (processedDocs : list (list jsstring)) (word : jsstring) : jsnum :=
  log (div (of_nat (length processedDocs))
           (add (Num 1) (of_nat (docFreq_of processedDocs word)))).

Lemma idfMap_lookup (processedDocs : list (list jsstring))
    (vocabArray : list jsstring) (word : jsstring) :
  word ∈ vocabArray ->
  idfMap_of processedDocs vocabArray !! word = Some (idf_value processedDocs word).
Proof.
  intros Hin. unfold idfMap_of.
  rewrite (insert_fold_lookup (idf_value processedDocs)).
  now rewrite decide_True.
Qed.

Lemma set_add_fold (l : list jsstring) :
  forall (seen : list jsstring) (word : jsstring),
    word ∈ foldl set_add seen l <-> word ∈ seen \/ word ∈ l.
Proof.
  induction l as [|x l IH]; intros seen word; cbn [foldl].
  - split; [now left | intros [|H]; [assumption | inversion H]].
  - rewrite IH, elem_of_cons. unfold set_add.
    destruct (decide (x ∈ seen)) as [Hx|Hx].
    + split; [tauto | intros [|[->|]]; tauto].
    + rewrite elem_of_app, list_elem_of_singleton. tauto.
Qed.

Lemma set_add_fold_NoDup (l : list jsstring) :
  forall seen : list jsstring, NoDup seen -> NoDup (foldl set_add seen l).
Proof.
  induction l as [|x l IH]; intros seen Hnd; cbn [foldl]; [assumption|].
  apply IH. unfold set_add. destruct (decide (x ∈ seen)); [assumption|].
  apply NoDup_app. split; [assumption|]. split; [|apply NoDup_singleton].
  intros y Hy Hy'. apply list_elem_of_singleton in Hy'. now subst.
Qed.

Lemma elem_of_concat (ls : list (list jsstring)) (word : jsstring) :
  word ∈ concat ls <-> exists doc, doc ∈ ls /\ word ∈ doc.
Proof.
  induction ls as [|l ls IH]; cbn [concat].
  - split; [intros H; inversion H | intros (doc & H & _); inversion H].
  - rewrite elem_of_app, IH. split.
    + intros [H|(doc & Hd & Hw)].
      * exists l. split; [now left | assumption].
      * exists doc. split; [now right | assumption].
    + intros (doc & Hd & Hw). apply elem_of_cons in Hd as [->|Hd].
      * now left.
      * right. now exists doc.
Qed.

(** The vocabulary is the set of the tokens of the corpus. *)
Lemma vocabulary_elem (processedDocs : list (list jsstring)) (word : jsstring) :
  word ∈ vocabulary_of processedDocs
  <-> exists doc, doc ∈ processedDocs /\ word ∈ doc.
Proof.
  unfold vocabulary_of. rewrite set_add_fold, elem_of_concat.
  split.
  - intros [H|H]; [inversion H | assumption].
  - intros H. now right.
Qed.

Lemma vocabulary_NoDup (processedDocs : list (list jsstring)) :
  NoDup (vocabulary_of processedDocs).
Proof. apply set_add_fold_NoDup. constructor. Qed.

Lemma docFreq_le (processedDocs : list (list jsstring)) (word : jsstring) :
  (docFreq_of processedDocs word <= length processedDocs)%nat.
Proof. unfold docFreq_of. apply length_filter. Qed.

Lemma docFreq_pos (processedDocs : list (list jsstring)) (word : jsstring) :
  word ∈ vocabulary_of processedDocs ->
  (1 <= docFreq_of processedDocs word)%nat.
Proof.
  rewrite vocabulary_elem. intros (doc & Hdoc & Hw). unfold docFreq_of.
  assert (Hin : doc ∈ filter (fun d : list jsstring => word ∈ d) processedDocs)
    by (apply list_elem_of_filter; split; assumption).
  destruct (filter _ processedDocs); [inversion Hin | cbn; lia].
Qed.

(** What one pass of the inner [forEach] leaves at the position of
    [word]. *)
Definition component (idfMap : gmap jsstring jsnum) (words : list jsstring)
    (word : jsstring) : jsnum :=
  match wordCount_of words !! word with
  | Some count =>
      mul (div (of_nat count) (of_nat (length words))) (idf_get idfMap word)
  | None => Num 0
  end.

Lemma vector_fold (idfMap : gmap jsstring jsnum) (words : list jsstring)
    (l : list jsstring) :
  forall pre : list jsnum,
    foldl (fun (vector : list jsnum) '(index, word) =>
             match wordCount_of words !! word with
             | Some count =>
                 <[index := mul (div (of_nat count) (of_nat (length words)))
                                (idf_get idfMap word)]> vector
             | None => vector
             end)
          (pre ++ replicate (length l) (Num 0))
          (imap (fun i w => (length pre + i, w)%nat) l)
    = pre ++ map (component idfMap words) l.
Proof.
  induction l as [|w l IH]; intros pre; [reflexivity|].
  cbn [length replicate imap foldl map].
  assert (Hstep :
    match wordCount_of words !! w with
    | Some count =>
        <[(length pre + 0)%nat := mul (div (of_nat count) (of_nat (length words)))
                                      (idf_get idfMap w)]>
          (pre ++ Num 0 :: replicate (length l) (Num 0))
    | None => pre ++ Num 0 :: replicate (length l) (Num 0)
    end = (pre ++ [component idfMap words w]) ++ replicate (length l) (Num 0)).
  { unfold component. rewrite <- app_assoc. cbn [app].
    destruct (wordCount_of words !! w); [|reflexivity].
    now rewrite insert_app_r. }
  rewrite Hstep.
  rewrite (imap_ext _ (fun i w0 => (length (pre ++ [component idfMap words w]) + i, w0)%nat)).
  - rewrite IH, <- app_assoc. reflexivity.
  - intros i x _. cbn. rewrite length_app. cbn. f_equal. lia.
Qed.

(** The vector of a document, position by position. *)
Lemma vector_of_components (idfMap : gmap jsstring jsnum)
    (vocabArray words : list jsstring) :
  vector_of idfMap vocabArray words = map (component idfMap words) vocabArray.
Proof.
  unfold vector_of. cbv zeta.
  pose proof (vector_fold idfMap words vocabArray []) as H.
  cbn [app length Nat.add] in H. exact H.
Qed.

Local Open Scope R_scope.

(** Term frequency and inverse document frequency as real numbers. *)
Definition tf_real (words : list jsstring) (word : jsstring) : R :=
  INR (count_of word words) / INR (length words).

Definition idf_real (processedDocs : list (list jsstring)) (word : jsstring) : R :=
  ln (INR (length processedDocs) / (1 + INR (docFreq_of processedDocs word))).

Definition weight (processedDocs : list (list jsstring)) (words : list jsstring)
    (word : jsstring) : R :=
  tf_real words word * idf_real processedDocs word.

Lemma tf_real_nonneg (words : list jsstring) (word : jsstring) :
  0 <= tf_real words word.
Proof.
  unfold tf_real. destruct words as [|x words].
  - cbn. unfold Rdiv. rewrite Rmult_0_l. lra.
  - apply Rmult_le_pos; [apply pos_INR|].
    left. apply Rinv_0_lt_compat. apply lt_0_INR. cbn; lia.
Qed.

Lemma tf_real_pos (words : list jsstring) (word : jsstring) :
  word ∈ words -> 0 < tf_real words word.
Proof.
  intros Hin. apply count_of_pos in Hin.
  pose proof (count_of_le_length word words).
  unfold tf_real. apply Rdiv_lt_0_compat; apply lt_0_INR; lia.
Qed.

Lemma tf_real_absent (words : list jsstring) (word : jsstring) :
  word ∉ words -> tf_real words word = 0.
Proof.
  intros Hnin. unfold tf_real.
  destruct (count_of word words) eqn:E.
  - cbn. unfold Rdiv. now rewrite Rmult_0_l.
  - exfalso. apply Hnin. apply count_of_pos. lia.
Qed.

Lemma idf_value_real (processedDocs : list (list jsstring)) (word : jsstring) :
  processedDocs <> [] ->
  idf_value processedDocs word = Num (idf_real processedDocs word).
Proof.
  intros Hne. unfold idf_value, idf_real, of_nat.
  pose proof (pos_INR (docFreq_of processedDocs word)).
  assert (0 < INR (length processedDocs)).
  { apply lt_0_INR. destruct processedDocs; [contradiction | cbn; lia]. }
  rewrite add_num, div_num by lra.
  apply log_num. apply Rdiv_lt_0_compat; lra.
Qed.

Lemma component_weight (processedDocs : list (list jsstring))
    (words : list jsstring) (word : jsstring) :
  word ∈ vocabulary_of processedDocs ->
  component (idfMap_of processedDocs (vocabulary_of processedDocs)) words word
  = Num (weight processedDocs words word).
Proof.
  intros Hin. unfold component, weight, tf_real.
  rewrite wordCount_lookup.
  destruct (count_of word words) as [|c] eqn:Hc.
  - f_equal. cbn. unfold Rdiv. now rewrite !Rmult_0_l.
  - unfold idf_get. rewrite idfMap_lookup by assumption. cbn [default from_option id].
    rewrite idf_value_real.
    + unfold of_nat. rewrite div_num; [reflexivity|].
      apply not_0_INR. pose proof (count_of_le_length word words). lia.
    + apply vocabulary_elem in Hin as (doc & Hdoc & _).
      intros ->. inversion Hdoc.
Qed.

(** [createTfIdfVectors] computes, for every document and every term
    of the vocabulary, term frequency times inverse document
    frequency. *)
Lemma vectors_weights (toLowerCase : jsstring -> jsstring) (documents : list jsstring) :
  let processedDocs := map (preprocessText toLowerCase) documents in
  let vocabArray := vocabulary_of processedDocs in
  createTfIdfVectors toLowerCase documents
  = (map (fun words => map (fun word => Num (weight processedDocs words word)) vocabArray)
         processedDocs,
     vocabArray).
Proof.
  intros processedDocs vocabArray. unfold createTfIdfVectors. cbv zeta.
  fold processedDocs. fold vocabArray. f_equal.
  apply map_ext. intros words. rewrite vector_of_components.
  apply map_ext_in. intros word Hin. apply component_weight.
  now apply list_elem_of_In.
Qed.

End VectorFacts.

(** ** The sort of [rankRelevantPosts] *)

Module SortFacts.
Import JsNum JsNumFacts.
Local Open Scope R_scope.

Lemma sort_insert_perm {A} (cmp : A -> A -> jsnum) (x : A) (l : list A) :
  sort_insert cmp x l ≡ₚ x :: l.
Proof.
  induction l as [|y l IH]; cbn [sort_insert]; [reflexivity|].
  destruct (gt (cmp x y) (Num 0)); [|reflexivity].
  rewrite IH. apply Permutation_swap.
Qed.

(** Sorting rearranges, it neither adds nor drops an element. *)
Lemma sort_perm {A} (cmp : A -> A -> jsnum) (l : list A) : sort cmp l ≡ₚ l.
Proof.
  unfold sort. induction l as [|x l IH]; cbn [foldr]; [reflexivity|].
  now rewrite sort_insert_perm, IH.
Qed.





Lemma Forall_sublist {A} (P : A -> Prop) (l k : list A) :
  k `sublist_of` l -> Forall P l -> Forall P k.
Proof.
  intros Hsub. induction Hsub as [|x k l Hsub IH|x k l Hsub IH]; intros HP.
  - constructor.
  - apply Forall_cons in HP as [Hx HP]. constructor; [assumption | now apply IH].
  - apply Forall_cons in HP as [_ HP]. now apply IH.
Qed.


End SortFacts.

(** ** The similarities of one ranking run *)

Module RankFacts.
Import JsNum JsNumFacts Sums CosineFacts VectorFacts SortFacts.

Lemma map_result_imap {A B} (g : nat -> A -> B) (l : list A) :
  forall k : nat -> nat,
    map_result (fun '(i, v) => Ok (g i v)) (imap (fun i v => (k i, v)) l)
    = Ok (imap (fun i => g (k i)) l).
Proof.
  induction l as [|x l IH]; intros k; [reflexivity|].
  cbn [imap map_result rbind].
  rewrite (imap_ext _ (fun i v => ((k ∘ S) i, v)) l) by reflexivity.
  rewrite IH. reflexivity.
Qed.

Lemma map_result_length {A B} (f : A -> result B) (l : list A) :
  forall out, map_result f l = Ok out -> length out = length l.
Proof.
  induction l as [|x l IH]; intros out H; cbn [map_result] in H.
  - now injection H as <-.
  - destruct (f x); [|discriminate]. cbn [rbind] in H.
    destruct (map_result f l) as [ys|]; [|discriminate]. cbn [rbind] in H.
    injection H as <-. cbn. f_equal. now apply IH.
Qed.

Lemma pop_app {A} (l : list A) (x : A) : pop (l ++ [x]) = (l, Some x).
Proof. unfold pop. now rewrite removelast_last, last_snoc. Qed.

(** The array [similarities] when no post makes [posts.map] throw. *)
Definition scored_at (items : list json) (queryVector : list jsnum)
    (index : nat) (postVector : list jsnum) : scored :=
  mkScored index (cosineSimilarity queryVector postVector) (items !! index).

Section Ranking.
Variable visibleText : json -> result jsstring.
Variable toLowerCase : jsstring -> jsstring.

Lemma vectors_split (postTexts : list jsstring) (query : jsstring) :
  exists vectors queryVector,
    fst (createTfIdfVectors toLowerCase (postTexts ++ [query]))
    = vectors ++ [queryVector]
    /\ length vectors = length postTexts.
Proof.
  unfold createTfIdfVectors. cbv zeta. cbn [fst].
  rewrite !map_app. cbn [map]. eexists; eexists. split; [reflexivity|].
  now rewrite !length_map.
Qed.

Lemma similarities_of_array (query : jsstring) (items : list json)
    (postTexts : list jsstring) :
  map_result (post_text visibleText) items = Ok postTexts ->
  exists vectors queryVector,
    fst (createTfIdfVectors toLowerCase (postTexts ++ [query]))
    = vectors ++ [queryVector]
    /\ length vectors = length items
    /\ similarities_of visibleText toLowerCase query (JArr items)
       = Ok (imap (scored_at items queryVector) vectors).
Proof.
  intros Htexts.
  destruct (vectors_split postTexts query) as (vectors & queryVector & Hsplit & Hlen).
  exists vectors, queryVector. split; [assumption|]. split.
  - rewrite Hlen. eapply map_result_length; eassumption.
  - unfold similarities_of. rewrite Htexts. cbn [rbind].
    rewrite Hsplit, pop_app.
    apply (map_result_imap (scored_at items queryVector) vectors (fun i => i)).
Qed.

(** Whatever [similarities_of] returns is of that form. *)
Lemma similarities_of_inv (query : jsstring) (posts : json) (sims : list scored) :
  similarities_of visibleText toLowerCase query posts = Ok sims ->
  exists items postTexts vectors queryVector,
    posts = JArr items
    /\ fst (createTfIdfVectors toLowerCase (postTexts ++ [query]))
       = vectors ++ [queryVector]
    /\ length vectors = length items
    /\ sims = imap (scored_at items queryVector) vectors.
Proof.
  intros H. destruct posts as [| | | |items|]; try discriminate.
  destruct (map_result (post_text visibleText) items) as [postTexts|e] eqn:Htexts.
  - destruct (similarities_of_array query items postTexts Htexts)
      as (vectors & queryVector & Hsplit & Hlen & Heq).
    rewrite Heq in H. injection H as <-.
    exists items, postTexts, vectors, queryVector. auto.
  - unfold similarities_of in H. rewrite Htexts in H. discriminate.
Qed.

End Ranking.

Lemma imap_index_sorted (items : list json) (queryVector : list jsnum)
    (vectors : list (list jsnum)) :
  StronglySorted (fun a b => (index a < index b)%nat)
                 (imap (scored_at items queryVector) vectors).
Proof.
  assert (H : forall k : nat,
    StronglySorted (fun a b => (index a < index b)%nat)
      (imap (fun i => scored_at items queryVector (k + i)) vectors)).
  { induction vectors as [|v vectors IH]; intros k; cbn [imap]; constructor.
    - rewrite (imap_ext _ (fun i => scored_at items queryVector (S k + i))).
      + apply IH.
      + intros i x _. cbn. f_equal. lia.
    - apply Forall_forall. intros x Hx.
      apply elem_of_lookup_imap in Hx as (i & y & -> & _). cbn. lia. }
  apply (H O).
Qed.

Lemma imap_lookup_index (items : list json) (queryVector : list jsnum)
    (vectors : list (list jsnum)) (item : scored) :
  item ∈ imap (scored_at items queryVector) vectors ->
  imap (scored_at items queryVector) vectors !! index item = Some item
  /\ post item = items !! index item
  /\ exists postVector, postVector ∈ vectors
       /\ similarity item = cosineSimilarity queryVector postVector.
Proof.
  intros Hin. apply elem_of_lookup_imap in Hin as (i & v & -> & Hv).
  cbn. rewrite list_lookup_imap, Hv. cbn. split; [reflexivity|].
  split; [reflexivity|]. exists v. split; [|reflexivity].
  eapply list_elem_of_lookup_2; eassumption.
Qed.

End RankFacts.

(** ** Vectors of one [createTfIdfVectors] call *)

Module TfIdfFacts.
Import JsNum JsNumFacts Sums CosineFacts VectorFacts.
Local Open Scope R_scope.

Section Corpus.
Variable toLowerCase : jsstring -> jsstring.
Variable documents : list jsstring.

Let processedDocs := map (preprocessText toLowerCase) documents.
Let vocabArray := vocabulary_of processedDocs.

(** Every vector of the call lists the weights of one document. *)
Lemma vector_form (vec : list jsnum) :
  vec ∈ fst (createTfIdfVectors toLowerCase documents) ->
  exists words,
    words ∈ processedDocs
    /\ vec = map Num (map (weight processedDocs words) vocabArray).
Proof.
  rewrite vectors_weights. cbn [fst]. fold processedDocs vocabArray.
  intros Hin. apply list_elem_of_In, in_map_iff in Hin as (words & <- & Hw).
  exists words. split; [now apply list_elem_of_In|]. now rewrite map_map.
Qed.

Lemma nth_weights (words : list jsstring) (i : nat) :
  (i < length vocabArray)%nat ->
  nth i (map (weight processedDocs words) vocabArray) 0
  = weight processedDocs words (nth i vocabArray []).
Proof.
  intros Hi.
  rewrite (nth_indep _ 0 (weight processedDocs words [])) by now rewrite length_map.
  apply map_nth.
Qed.

(** Two vectors of one call never disagree in sign at a position:
    both components carry the same inverse document frequency. *)
Lemma tfidf_cosine_bounds (vecA vecB : list jsnum) :
  vecA ∈ fst (createTfIdfVectors toLowerCase documents) ->
  vecB ∈ fst (createTfIdfVectors toLowerCase documents) ->
  exists r, cosineSimilarity vecA vecB = Num r /\ 0 <= r <= 1.
Proof.
  intros HA HB.
  apply vector_form in HA as (wordsA & _ & ->).
  apply vector_form in HB as (wordsB & _ & ->).
  apply cosine_bounds.
  - now rewrite !length_map.
  - intros i Hi. rewrite length_map in Hi. rewrite !nth_weights by assumption.
    unfold weight.
    set (w := nth i vocabArray []).
    pose proof (tf_real_nonneg wordsA w). pose proof (tf_real_nonneg wordsB w).
    replace (tf_real wordsA w * idf_real processedDocs w
             * (tf_real wordsB w * idf_real processedDocs w))
      with (tf_real wordsA w * tf_real wordsB w
            * (idf_real processedDocs w * idf_real processedDocs w)) by ring.
    apply Rmult_le_pos; nra.
Qed.

Lemma vector_length (vec : list jsnum) :
  vec ∈ fst (createTfIdfVectors toLowerCase documents) ->
  length vec = length (snd (createTfIdfVectors toLowerCase documents)).
Proof.
  intros H. apply vector_form in H as (words & _ & ->).
  rewrite vectors_weights. cbn [snd]. now rewrite !length_map.
Qed.

Lemma vector_finite (vec : list jsnum) :
  vec ∈ fst (createTfIdfVectors toLowerCase documents) ->
  Forall finite vec.
Proof.
  intros H. apply vector_form in H as (words & _ & ->).
  apply Forall_forall. intros x Hx.
  apply list_elem_of_In, in_map_iff in Hx as (r & <- & _). now exists r.
Qed.

End Corpus.

End TfIdfFacts.

(** * The claims *)

Import JsNum JsNumFacts Sums CosineFacts VectorFacts SortFacts RankFacts TfIdfFacts.

(** ** Cosine similarity of zero vectors *)

(** C8, as stated, fails: the loop runs over the indices of [vecA] and
    reads [vecB] past its end when [vecB] is shorter.  The empty vector
    has norm 0, yet against the one-component vector [[1]] the result is
    [NaN], not 0. *)
Lemma cosine_of_shorter_zero_vector :
  euclidean_norm [] = 0%R
  /\ cosineSimilarity (map Num [1%R]) (map Num []) = NaN.
Proof.
  split.
  - unfold euclidean_norm. cbn. apply sqrt_0.
  - unfold cosineSimilarity. cbn.
    unfold is_zero. destruct (Req_dec_T (0 + 1 * 1) 0) as [H|_]; [lra | reflexivity].
Qed.

(** C8, amended: a first vector of Euclidean norm 0 gives exactly 0
    against any second vector; a second vector of Euclidean norm 0 gives
    exactly 0 against any first vector that is not longer (the vectors of
    one ranking run have equal lengths).  The division is not reached and
    the result is never [NaN]. *)
Theorem cosine_zero_norm (a : list R) :
  euclidean_norm a = 0%R ->
  (forall vecB : list jsnum, cosineSimilarity (map Num a) vecB = Num 0)
  /\ (forall vecA : list jsnum,
        length vecA <= length a -> cosineSimilarity vecA (map Num a) = Num 0).
Proof.
  intros Hnorm.
  assert (Hzero : forall i, nth i a 0%R = 0%R).
  { apply zero_norm_all_zero in Hnorm. clear -Hnorm.
    induction Hnorm as [|x a Hx _ IH]; intros [|i]; cbn; auto. }
  assert (Hsum : forall n, n <= length a ->
            acc_sum (map Num a) (map Num a) (Num 0) (seq 0 n) = Num 0).
  { intros n Hn.
    rewrite (acc_sum_finite _ _ (fun i => nth i a 0%R) (fun i => nth i a 0%R)).
    - f_equal. rewrite sum_over_zero; [lra|]. intros i _. rewrite Hzero. lra.
    - intros i Hi. apply in_seq_lt in Hi.
      split; apply lookup_map_Num; lia. }
  split.
  - intros vecB. rewrite cosine_unfold. cbv zeta.
    rewrite length_map, Hsum by lia.
    replace (is_zero (Num 0)) with true; [reflexivity|].
    symmetry. now apply is_zero_num.
  - intros vecA Hlen. rewrite cosine_unfold. cbv zeta.
    rewrite Hsum by assumption.
    replace (is_zero (Num 0)) with true; [now rewrite orb_true_r|].
    symmetry. now apply is_zero_num.
Qed.

(** C8, amended, on the zero vector of length 2. *)
Lemma cosine_zero_norm_witness :
  (forall vecB : list jsnum, cosineSimilarity (map Num [0%R; 0%R]) vecB = Num 0)
  /\ (forall vecA : list jsnum,
        length vecA <= length [0%R; 0%R] ->
        cosineSimilarity vecA (map Num [0%R; 0%R]) = Num 0).
Proof.
  apply (cosine_zero_norm [0%R; 0%R]).
  unfold euclidean_norm. cbn.
  replace (0 * 0 + (0 * 0 + 0))%R with 0%R by ring.
  apply sqrt_0.
Defined.

(** ** Ranking *)

(** The threshold test of the [filter]. *)
Definition above_threshold (item : scored) : Prop :=
  gt (similarity item) (Num (1 / 100)).

(** The last [map] of [rankRelevantPosts]. *)
Definition to_ranked (item : scored) : ranked_post :=
  mkRanked (post item) (similarity item).

Section RankingRun.
Variable visibleText : json -> result jsstring.
Variable toLowerCase : jsstring -> jsstring.

Lemma rank_unfold (query : jsstring) (posts : json) (topK : nat) :
  rankRelevantPosts visibleText toLowerCase query posts topK = []
  \/ exists sims,
       similarities_of visibleText toLowerCase query posts = Ok sims
       /\ rankRelevantPosts visibleText toLowerCase query posts topK
          = map to_ranked (take topK (filter above_threshold (sort by_similarity sims))).
Proof.
  unfold rankRelevantPosts.
  destruct (no_candidates posts); [now left|].
  destruct (similarities_of visibleText toLowerCase query posts) as [sims|e];
    [right | now left].
  exists sims. split; reflexivity.
Qed.

(** What holds of the array [similarities]: every score is a real
    number between 0 and 1, and the entries are listed by position. *)
Lemma similarities_scores (query : jsstring) (posts : json) (sims : list scored) :
  similarities_of visibleText toLowerCase query posts = Ok sims ->
  Forall (fun item => exists r, similarity item = Num r /\ (0 <= r <= 1)%R) sims
  /\ StronglySorted (fun a b => index a < index b) sims
  /\ Forall (fun item => sims !! index item = Some item) sims.
Proof.
  intros H.
  apply similarities_of_inv in H
    as (items & postTexts & vectors & queryVector & -> & Hsplit & Hlen & ->).
  split; [|split].
  - apply Forall_forall. intros item Hin.
    apply imap_lookup_index in Hin as (_ & _ & postVector & Hv & ->).
    apply (tfidf_cosine_bounds toLowerCase (postTexts ++ [query]));
      rewrite Hsplit, elem_of_app.
    + right. apply list_elem_of_singleton. reflexivity.
    + now left.
  - apply imap_index_sorted.
  - apply Forall_forall. intros item Hin.
    now apply imap_lookup_index in Hin as (? & _).
Qed.

Lemma ranking_sublist (sims : list scored) (topK : nat) :
  take topK (filter above_threshold (sort by_similarity sims))
    `sublist_of` sort by_similarity sims.
Proof.
  etransitivity; [apply sublist_take | apply sublist_filter].
Qed.

Lemma ranking_Forall (P : scored -> Prop) (sims : list scored) (topK : nat) :
  Forall P sims ->
  Forall P (take topK (filter above_threshold (sort by_similarity sims))).
Proof.
  intros H. eapply Forall_sublist; [apply ranking_sublist|].
  now rewrite sort_perm.
Qed.






End RankingRun.

(** ** Range and definedness of the similarities *)

Section Similarities.
Variable visibleText : json -> result jsstring.
Variable toLowerCase : jsstring -> jsstring.


(** C9: in one call of [createTfIdfVectors] every vector has the length
    of the vocabulary and finite components, every term of the
    vocabulary occurs in at least one document, and a term counted in a
    document finds a positive token count to divide by; in one ranking
    run the query vector and every post vector have one length, so the
    loop of [cosineSimilarity] reads inside both, and every similarity
    is a finite number. *)
Theorem ranking_run_is_finite :
  (forall documents : list jsstring,
     let processedDocs := map (preprocessText toLowerCase) documents in
     let vectors := fst (createTfIdfVectors toLowerCase documents) in
     let vocabulary := snd (createTfIdfVectors toLowerCase documents) in
     Forall (fun vec => length vec = length vocabulary /\ Forall finite vec) vectors
     /\ Forall (fun word => 1 <= docFreq_of processedDocs word) vocabulary
     /\ Forall (fun words =>
                  Forall (fun word => is_Some (wordCount_of words !! word) ->
                                      0 < length words) vocabulary) processedDocs
     /\ Forall (fun vecA =>
                  Forall (fun vecB => finite (cosineSimilarity vecA vecB)) vectors)
               vectors)
  /\ (forall (query : jsstring) (posts : json),
        match similarities_of visibleText toLowerCase query posts with
        | Ok sims =>
            exists items vectors queryVector,
              sims = imap (scored_at items queryVector) vectors
              /\ Forall finite queryVector
              /\ Forall (fun postVector =>
                           length postVector = length queryVector
                           /\ Forall finite postVector
                           /\ forall i, i < length queryVector ->
                                is_Some (queryVector !! i)
                                /\ is_Some (postVector !! i)) vectors
              /\ Forall (fun item => finite (similarity item)) sims
        | Throw _ => True
        end).
Proof.
  split.
  - intros documents processedDocs vectors vocabulary.
    split; [|split; [|split]].
    + apply Forall_forall. intros vec Hvec. split.
      * now apply vector_length.
      * eapply vector_finite; eassumption.
    + apply Forall_forall. intros word Hword. apply docFreq_pos.
      exact Hword.
    + apply Forall_forall. intros words _. apply Forall_forall. intros word _.
      rewrite wordCount_lookup. intros [c Hc].
      pose proof (count_of_le_length word words).
      destruct (count_of word words); [discriminate | lia].
    + apply Forall_forall. intros vecA HA. apply Forall_forall. intros vecB HB.
      destruct (tfidf_cosine_bounds toLowerCase documents vecA vecB HA HB) as (r & Hr & _).
      now exists r.
  - intros query posts.
    destruct (similarities_of visibleText toLowerCase query posts) as [sims|e] eqn:Hsims;
      [|exact I].
    destruct (similarities_scores visibleText toLowerCase _ _ _ Hsims) as (Hscore & _).
    apply similarities_of_inv in Hsims
      as (items & postTexts & vectors & queryVector & -> & Hsplit & Hlen & ->).
    set (documents := postTexts ++ [query]) in *.
    assert (Hq : queryVector ∈ fst (createTfIdfVectors toLowerCase documents)).
    { rewrite Hsplit, elem_of_app. right. now apply list_elem_of_singleton. }
    exists items, vectors, queryVector. split; [reflexivity|].
    split; [eapply vector_finite; eassumption|]. split.
    + apply Forall_forall. intros postVector Hv.
      assert (Hp : postVector ∈ fst (createTfIdfVectors toLowerCase documents)).
      { rewrite Hsplit, elem_of_app. now left. }
      assert (Hsame : length postVector = length queryVector).
      { rewrite (vector_length _ _ _ Hp), (vector_length _ _ _ Hq). reflexivity. }
      split; [assumption|]. split; [eapply vector_finite; eassumption|].
      intros i Hi. split; apply lookup_lt_is_Some; lia.
    + eapply Forall_impl; [exact Hscore|]. intros item (r & Hr & _). now exists r.
Qed.

End Similarities.

(** ** Sign of the components *)

(** [toLowerCase] on text without letters other than those of ASCII. *)
Definition lower_ascii (s : jsstring) : jsstring :=
  map (fun c => if ((65 <=? c) && (c <=? 90))%N then (c + 32)%N else c) s.

Lemma two_equal_documents :
  map (preprocessText lower_ascii) [js "abc"; js "abc"] = [[js "abc"]; [js "abc"]].
Proof. vm_compute. reflexivity. Qed.

Lemma ln_two_thirds : (ln (2 / 3) < 0)%R.
Proof. rewrite <- ln_1. apply ln_increasing; lra. Qed.

(** C7, as stated, fails: in the corpus of two documents [abc], the term
    occurs in both, its inverse document frequency is ln(2/3), and the
    component of each vector is negative. *)
Lemma component_can_be_negative :
  exists r : R,
    fst (createTfIdfVectors lower_ascii [js "abc"; js "abc"]) = [[Num r]; [Num r]]
    /\ (r < 0)%R.
Proof.
  exists (weight [[js "abc"]; [js "abc"]] [js "abc"] (js "abc")).
  split.
  - rewrite vectors_weights. cbv zeta. rewrite two_equal_documents. reflexivity.
  - unfold weight, tf_real, idf_real.
    replace (count_of (js "abc") [js "abc"]) with 1 by (vm_compute; reflexivity).
    replace (docFreq_of [[js "abc"]; [js "abc"]] (js "abc")) with 2
      by (vm_compute; reflexivity).
    cbn [length INR].
    replace (1 / 1 * ln ((1 + 1) / (1 + (1 + 1))))%R with (ln (2 / 3)).
    + exact ln_two_thirds.
    + replace ((1 + 1) / (1 + (1 + 1)))%R with (2 / 3)%R by lra. lra.
Qed.

Lemma ln_nonneg (x : R) : (1 <= x -> 0 <= ln x)%R.
Proof.
  intros [Hlt|<-].
  - left. rewrite <- ln_1. apply ln_increasing; lra.
  - rewrite ln_1. lra.
Qed.

Lemma idf_real_nonneg (processedDocs : list (list jsstring)) (word : jsstring) :
  docFreq_of processedDocs word < length processedDocs ->
  (0 <= idf_real processedDocs word)%R.
Proof.
  intros Hlt. unfold idf_real. apply ln_nonneg.
  pose proof (pos_INR (docFreq_of processedDocs word)) as Hpos.
  assert (Hle : (1 + INR (docFreq_of processedDocs word) <= INR (length processedDocs))%R).
  { replace (1 + INR (docFreq_of processedDocs word))%R
      with (INR (S (docFreq_of processedDocs word))) by (rewrite S_INR; lra).
    apply le_INR. lia. }
  apply (Rmult_le_reg_r (1 + INR (docFreq_of processedDocs word))); [lra|].
  unfold Rdiv. rewrite Rmult_assoc, Rinv_l by lra. lra.
Qed.

Lemma idf_real_negative (processedDocs : list (list jsstring)) (word : jsstring) :
  processedDocs <> [] ->
  docFreq_of processedDocs word = length processedDocs ->
  (idf_real processedDocs word < 0)%R.
Proof.
  intros Hne Heq. unfold idf_real. rewrite Heq.
  assert (Hn : (0 < INR (length processedDocs))%R).
  { apply lt_0_INR. destruct processedDocs; [contradiction | cbn; lia]. }
  rewrite <- ln_1. apply ln_increasing.
  - apply Rdiv_lt_0_compat; lra.
  - apply (Rmult_lt_reg_r (1 + INR (length processedDocs))); [lra|].
    unfold Rdiv. rewrite Rmult_assoc, Rinv_l by lra. lra.
Qed.

(** C7, amended: every component is the real number term frequency times
    ln(document count / (1 + document frequency)); it is 0 for a term
    absent from the document, non-negative for a term of the document that
    some document of the corpus lacks, and negative for a term that occurs
    in every document of the corpus. *)
Theorem component_values (toLowerCase : jsstring -> jsstring) (documents : list jsstring) :
  let processedDocs := map (preprocessText toLowerCase) documents in
  let vocabulary := snd (createTfIdfVectors toLowerCase documents) in
  fst (createTfIdfVectors toLowerCase documents)
  = map (fun words => map (fun word => Num (weight processedDocs words word)) vocabulary)
        processedDocs
  /\ Forall (fun words =>
       Forall (fun word =>
         (word ∉ words -> weight processedDocs words word = 0%R)
         /\ (word ∈ words ->
             docFreq_of processedDocs word < length processedDocs ->
             (0 <= weight processedDocs words word)%R)
         /\ (word ∈ words ->
             docFreq_of processedDocs word = length processedDocs ->
             (weight processedDocs words word < 0)%R)) vocabulary) processedDocs.
Proof.
  intros processedDocs vocabulary. split.
  - unfold vocabulary. rewrite vectors_weights. reflexivity.
  - apply Forall_forall. intros words Hwords. apply Forall_forall. intros word _.
    unfold weight. split; [|split].
    + intros Habsent. rewrite tf_real_absent by assumption. lra.
    + intros _ Hlt. apply Rmult_le_pos; [apply tf_real_nonneg | now apply idf_real_nonneg].
    + intros Hin Heq. pose proof (tf_real_pos words word Hin) as Htf.
      assert (Hidf : (idf_real processedDocs word < 0)%R).
      { apply idf_real_negative; [|assumption]. intros E. rewrite E in Hwords. inversion Hwords. }
      nra.
Qed.

(** ** The same computation on IEEE doubles *)

(** [createTfIdfVectors] and [cosineSimilarity] once more, on the
    binary64 numbers of the engine: every operation rounds to nearest.
    The token counts are those of the definitions above. *)
Module Double.
Import PrimFloat.
Local Open Scope float_scope.

(** A length or a count as a number; exact below 2^53. *)
Definition of_nat (n : nat) : float := Nat.iter n (fun x => x + 1) 0.

Section Engine.
Variable toLowerCase : jsstring -> jsstring.

(** [Math.log] *)
Variable Math_log : float -> float.

Definition idfMap_of (processedDocs : list (list jsstring))
    (vocabArray : list jsstring) : gmap jsstring float :=
  let docCount := length processedDocs in
  foldl (fun (idfMap : gmap jsstring float) word =>
           let docFreq := docFreq_of processedDocs word in
           <[word := Math_log (of_nat docCount / (1 + of_nat docFreq))]> idfMap)
        ∅ vocabArray.

(** [idfMap.get(word)] as an operand: [undefined] is [NaN] there. *)
Definition idf_get (idfMap : gmap jsstring float) (word : jsstring) : float :=
  default nan (idfMap !! word).

Definition vector_of (idfMap : gmap jsstring float) (vocabArray : list jsstring)
    (words : list jsstring) : list float :=
  let wordCount := wordCount_of words in
  foldl (fun (vector : list float) '(index, word) =>
           match wordCount !! word with
           | Some count =>
               let tf := of_nat count / of_nat (length words) in
               <[index := tf * idf_get idfMap word]> vector
           | None => vector
           end)
        (replicate (length vocabArray) 0)
        (imap pair vocabArray).

Definition createTfIdfVectors (documents : list jsstring)
    : list (list float) * list jsstring :=
  let processedDocs := map (preprocessText toLowerCase) documents in
  let vocabArray := vocabulary_of processedDocs in
  let idfMap := idfMap_of processedDocs vocabArray in
  (map (vector_of idfMap vocabArray) processedDocs, vocabArray).

End Engine.

(** [vec[i]] as an operand: past the end it is [undefined], that is
    [NaN]. *)
Definition at_index (vec : list float) (i : nat) : float :=
  default nan (vec !! i).

Definition cosine_step (vecA vecB : list float) (acc : float * float * float)
    (i : nat) : float * float * float :=
  let '(dotProduct, normA, normB) := acc in
  (dotProduct + at_index vecA i * at_index vecB i,
   normA + at_index vecA i * at_index vecA i,
   normB + at_index vecB i * at_index vecB i).

Definition cosineSimilarity (vecA vecB : list float) : float :=
  let '(dotProduct, normA, normB) :=
    foldl (cosine_step vecA vecB) (0, 0, 0) (seq 0%nat (length vecA)) in
  if (normA =? 0) || (normB =? 0) then 0
  else dotProduct / (sqrt normA * sqrt normB).



End Double.


(** ** The messages the transport inspects *)

Module MessageFacts.

Lemma starts_with_head (p : N) (pat s : jsstring) :
  starts_with (p :: pat) s = true -> exists s', s = p :: s'.
Proof.
  destruct s as [|c s']; cbn; [discriminate|].
  intros H. apply andb_true_iff in H as [H _]. apply N.eqb_eq in H. subst. eauto.
Qed.

(** A string that includes a pattern holds the first code unit of
    the pattern. *)
Lemma includes_head (p : N) (pat s : jsstring) :
  includes s (p :: pat) = true -> In p s.
Proof.
  induction s as [|c s IH]; cbn [includes]; intros H.
  - cbn in H. discriminate.
  - apply orb_true_iff in H as [H|H].
    + apply starts_with_head in H as (s' & E). injection E as -> _. now left.
    + right. now apply IH.
Qed.

Definition is_digit (c : N) : Prop := (48 <= c <= 57)%N.

Lemma uint_digits (d : Decimal.uint) :
  Forall is_digit (Utf16.bytes_of (NilEmpty.string_of_uint d)).
Proof.
  induction d; cbn; constructor; try assumption;
    unfold is_digit; split; intros Hc; vm_compute in Hc; discriminate.
Qed.

Lemma decimal_digits (n : nat) : Forall is_digit (decimal n).
Proof.
  unfold decimal, NilZero.string_of_uint.
  destruct (Nat.to_uint n) eqn:E; try apply uint_digits.
  cbn. constructor; [|constructor].
  unfold is_digit; split; intros Hc; vm_compute in Hc; discriminate.
Qed.

Ltac not_a_digit :=
  let H := fresh in
  intros [_ H]; vm_compute in H; apply H; reflexivity.

(** The message of a failed HTTP status matches none of the three
    patterns: each pattern begins with a capital that is neither in
    [HTTP ] nor a digit. *)
Lemma http_message_not_network_class (status : nat) :
  network_class (js "HTTP " ++ decimal status) = false.
Proof.
  assert (H : forall p pat, includes (js "HTTP " ++ decimal status) (p :: pat) = true ->
                ~ In p (js "HTTP ") -> ~ is_digit p -> False).
  { intros p pat Hinc Hpre Hdig. apply includes_head in Hinc.
    apply in_app_or in Hinc as [Hin|Hin]; [now apply Hpre|].
    pose proof (decimal_digits status) as Hd. rewrite List.Forall_forall in Hd.
    now apply Hdig, Hd. }
  unfold network_class.
  destruct (includes _ (js "CORS")) eqn:E1.
  { exfalso. apply (H _ _ E1); [vm_compute; intuition discriminate | not_a_digit]. }
  destruct (includes _ (js "NetworkError")) eqn:E2.
  { exfalso. apply (H _ _ E2); [vm_compute; intuition discriminate | not_a_digit]. }
  destruct (includes _ (js "Failed to fetch")) eqn:E3.
  { exfalso. apply (H _ _ E3); [vm_compute; intuition discriminate | not_a_digit]. }
  reflexivity.
Qed.

End MessageFacts.

(** ** Transport *)

Arguments js : simpl never.
Arguments decimal : simpl never.
Arguments network_class : simpl never.
Arguments includes : simpl never.
Arguments get_prop : simpl never.

(** What the [try] block of [searchPosts] comes to once the direct
    request has settled: the parsed body, or the error thrown (the
    rejection of [fetch], a status outside 200-299, the rejection of
    [json()]). *)
Definition primary_result (outcome : fetch_outcome) : result json :=
  match outcome with
  | NetFailure message => Throw (Error message)
  | HttpResponse status body =>
      if response_ok status then body
      else Throw (Error (js "HTTP " ++ decimal status))
  end.

(** The error [searchPosts] throws when it gives up. *)
Definition search_failed : exn := Error (js "Не мога да извърша търсене в момента.").

Section Transport.
Variable fetch : request -> list request -> Z -> fetch_outcome * Z.
Variable JSON_parse : json -> result json.
Variable engine_message : exn -> jsstring.

(** The world once a request has settled. *)
Definition after_fetch (rq : request) (w : world) : world :=
  mkWorld (queryCache w) (snd (fetch rq (requests w) (clock w))) (requests w ++ [rq]).

Definition outcome_of (rq : request) (w : world) : fetch_outcome :=
  fst (fetch rq (requests w) (clock w)).

Lemma do_fetch_eq (rq : request) (w : world) :
  do_fetch fetch rq w = (Ok (outcome_of rq w), after_fetch rq w).
Proof.
  unfold do_fetch, outcome_of, after_fetch.
  now destruct (fetch rq (requests w) (clock w)).
Qed.

(** The fallback never throws. *)
Lemma proxy_total (query : jsstring) (w : world) :
  exists v w', searchWithCorsProxy fetch JSON_parse query w = (Ok v, w').
Proof.
  unfold searchWithCorsProxy, try_catch.
  match goal with |- context [match ?m w with _ => _ end] => destruct (m w) as [[v|e] w'] end.
  - now exists v, w'.
  - now exists (JArr []), w'.
Qed.

(** It yields something else than the empty array only when the relay
    answered with an envelope whose [contents] is truthy and parses. *)
Lemma proxy_payload (query : jsstring) (w : world) (v : json) (w' : world) :
  searchWithCorsProxy fetch JSON_parse query w = (Ok v, w') ->
  v = JArr []
  \/ exists status data c,
       outcome_of (GetViaProxy query) w = HttpResponse status (Ok data)
       /\ get_prop (Some data) (js "contents") = Ok (Some c)
       /\ truthy c = true
       /\ JSON_parse c = Ok v.
Proof.
  unfold searchWithCorsProxy, try_catch, bind, encodeTarget, lift.
  destruct (lone_surrogate query).
  { intros [= <- _]. now left. }
  rewrite do_fetch_eq.
  destruct (outcome_of (GetViaProxy query) w) as [message|status body] eqn:Hout; cbn.
  { intros [= <- _]. now left. }
  destruct body as [data|e]; cbn.
  2: { intros [= <- _]. now left. }
  destruct (get_prop (Some data) (js "contents")) as [[c|]|e] eqn:Hc; cbn.
  2, 3: intros [= <- _]; now left.
  destruct (truthy c) eqn:Ht; cbn.
  2: { intros [= <- _]. now left. }
  unfold lift. destruct (JSON_parse c) as [parsed|e] eqn:Hp; cbn.
  2: { intros [= <- _]. now left. }
  intros [= <- _]. right. exists status, data, c. auto.
Qed.

(** What [searchPosts] does, by the way the direct request ends. *)
Lemma searchPosts_cases (query : jsstring) (w : world) :
  searchPosts fetch JSON_parse engine_message query w
  = match primary_result (outcome_of (GetPosts query) w) with
    | Ok v => (Ok v, after_fetch (GetPosts query) w)
    | Throw e =>
        if network_class (message_of engine_message e)
        then searchWithCorsProxy fetch JSON_parse query (after_fetch (GetPosts query) w)
        else (Throw search_failed, after_fetch (GetPosts query) w)
    end.
Proof.
  unfold searchPosts, try_catch, bind. rewrite do_fetch_eq.
  destruct (outcome_of (GetPosts query) w) as [message|status body]; cbn.
  - destruct (network_class message); reflexivity.
  - destruct (response_ok status); cbn.
    + destruct body as [v|e]; cbn; [reflexivity|].
      destruct (network_class (message_of engine_message e)); reflexivity.
    + destruct (network_class _); reflexivity.
Qed.

(** The fallback issues one request at most, and [searchPosts] issues
    the direct request first. *)
Lemma proxy_requests (query : jsstring) (w : world) :
  requests (snd (searchWithCorsProxy fetch JSON_parse query w)) = requests w
  \/ requests (snd (searchWithCorsProxy fetch JSON_parse query w))
     = requests w ++ [GetViaProxy query].
Proof.
  unfold searchWithCorsProxy, try_catch, bind, encodeTarget, lift.
  destruct (lone_surrogate query); [now left|].
  rewrite do_fetch_eq. right.
  destruct (outcome_of (GetViaProxy query) w) as [message|status body]; cbn; [reflexivity|].
  destruct body as [data|e]; cbn; [|reflexivity].
  destruct (get_prop (Some data) (js "contents")) as [[c|]|e]; cbn; try reflexivity.
  destruct (truthy c); cbn; [|reflexivity].
  unfold lift. destruct (JSON_parse c); reflexivity.
Qed.

Lemma searchPosts_requests (query : jsstring) (w : world) :
  exists rest,
    requests (snd (searchPosts fetch JSON_parse engine_message query w))
    = requests w ++ GetPosts query :: rest.
Proof.
  rewrite searchPosts_cases.
  destruct (primary_result _) as [v|e]; [exists []; reflexivity|].
  destruct (network_class _); [|exists []; reflexivity].
  destruct (proxy_requests query (after_fetch (GetPosts query) w)) as [->| ->]; cbn.
  - now exists [].
  - exists [GetViaProxy query]. now rewrite <- app_assoc.
Qed.

End Transport.

(** ** The orchestrator *)

(** The world once [processQuery] has stored a fresh response. *)
Definition stored (question : jsstring) (r : response) (w : world) : world :=
  mkWorld (<[question := mkEntry r (clock w)]> (queryCache w)) (clock w) (requests w).

Section Orchestrator.
Variable fetch : request -> list request -> Z -> fetch_outcome * Z.
Variable visibleText : json -> result jsstring.
Variable toLowerCase : jsstring -> jsstring.
Variable JSON_parse : json -> result json.
Variable toLocaleDateString : json -> jsstring.
Variable engine_message : exn -> jsstring.

Local Abbreviation search := (searchPosts fetch JSON_parse engine_message).
Local Abbreviation proxy := (searchWithCorsProxy fetch JSON_parse).
Local Abbreviation rank := (rankRelevantPosts visibleText toLowerCase).
Local Abbreviation compose := (generateResponse visibleText toLocaleDateString).
Local Abbreviation answer_fresh :=
  (answer_query fetch visibleText toLowerCase JSON_parse toLocaleDateString engine_message).
Local Abbreviation process :=
  (processQuery fetch visibleText toLowerCase JSON_parse toLocaleDateString engine_message).

Lemma answer_query_cases (question : jsstring) (w : world) :
  answer_fresh question w
  = if too_short_question question then (Ok too_short, w)
    else match search question w with
         | (Ok posts, w1) =>
             if no_candidates posts then (Ok no_posts, w1)
             else match compose question (rank question posts 5) with
                  | Ok r => (Ok r, stored question r w1)
                  | Throw e => (Ok technical_error, w1)
                  end
         | (Throw e, w1) => (Ok technical_error, w1)
         end.
Proof.
  unfold answer_query, try_catch, bind.
  destruct (too_short_question question); [reflexivity|].
  destruct (search question w) as [[posts|e] w1]; [|reflexivity].
  destruct (no_candidates posts); [reflexivity|].
  unfold lift. destruct (compose question (rank question posts 5)); reflexivity.
Qed.

Lemma processQuery_cases (question : jsstring) (w : world) :
  process question w
  = match queryCache w !! question with
    | Some entry =>
        if (clock w - timestamp entry <? cacheExpiry)%Z
        then (Ok (cached_response entry), w)
        else answer_fresh question w
    | None => answer_fresh question w
    end.
Proof.
  unfold processQuery, bind, cache_get, Date_now. cbn.
  destruct (queryCache w !! question) as [entry|]; [|reflexivity].
  cbn. destruct (clock w - timestamp entry <? cacheExpiry)%Z; reflexivity.
Qed.

Lemma processQuery_miss (question : jsstring) (w : world) :
  fresh (clock w) (queryCache w !! question) = false ->
  process question w = answer_fresh question w.
Proof.
  intros Hmiss. rewrite processQuery_cases.
  destruct (queryCache w !! question) as [entry|]; [|reflexivity].
  cbn in Hmiss. now rewrite Hmiss.
Qed.

Lemma processQuery_hit (question : jsstring) (w : world) (entry : cache_entry) :
  queryCache w !! question = Some entry ->
  (clock w - timestamp entry < cacheExpiry)%Z ->
  process question w = (Ok (cached_response entry), w).
Proof.
  intros Hentry Hfresh. rewrite processQuery_cases, Hentry.
  now apply Z.ltb_lt in Hfresh as ->.
Qed.

Lemma processQuery_expired (question : jsstring) (w : world) (entry : cache_entry) :
  queryCache w !! question = Some entry ->
  (cacheExpiry <= clock w - timestamp entry)%Z ->
  process question w = answer_fresh question w.
Proof.
  intros Hentry Hold. rewrite processQuery_cases, Hentry.
  now apply Z.ltb_ge in Hold as ->.
Qed.

Lemma trimmed_short (question : jsstring) :
  length (trim question) < 3 -> too_short_question question = true.
Proof.
  intros H. unfold too_short_question. apply orb_true_iff. right.
  now apply Nat.ltb_lt.
Qed.

(** A fresh computation on a non-empty candidate list stores its
    response under the raw question, stamped with the clock at that
    moment; until 30 minutes have passed on the clock, the same question
    is answered from the cache and the world is left as it is. *)
Lemma computed_then_cached (question : jsstring) (w : world) (posts : json) (w1 : world) :
  fresh (clock w) (queryCache w !! question) = false ->
  too_short_question question = false ->
  search question w = (Ok posts, w1) ->
  no_candidates posts = false ->
  forall r : response,
  compose question (rank question posts 5) = Ok r ->
  process question w = (Ok r, stored question r w1)
  /\ queryCache (stored question r w1) !! question = Some (mkEntry r (clock w1))
  /\ forall w2 : world,
       queryCache w2 !! question = queryCache (stored question r w1) !! question ->
       (clock w2 - clock w1 < cacheExpiry)%Z ->
       process question w2 = (Ok r, w2).
Proof.
  intros Hmiss Hlong Hsearch Hposts r Hcompose.
  assert (Hstored : queryCache (stored question r w1) !! question
                    = Some (mkEntry r (clock w1))).
  { unfold stored. cbn. apply lookup_insert_eq. }
  split; [|split; [assumption|]].
  - rewrite processQuery_miss by assumption.
    now rewrite answer_query_cases, Hlong, Hsearch, Hposts, Hcompose.
  - intros w2 Hsame Hfresh. rewrite Hstored in Hsame.
    now rewrite (processQuery_hit question w2 _ Hsame).
Qed.

(** The ways a query fails: the question is too short, retrieval
    throws, retrieval is empty, ranking yields nothing (an exception
    while scoring, which [rankRelevantPosts] turns into the empty list,
    or no similarity above the threshold), or composition throws. *)
Definition failure_path (question : jsstring) (w : world) : Prop :=
  too_short_question question = true
  \/ match search question w with
     | (Throw _, _) => True
     | (Ok posts, _) =>
         no_candidates posts = true
         \/ rank question posts 5 = []
         \/ exists e, compose question (rank question posts 5) = Throw e
     end.

(** C1: [processQuery] resolves for every question in every state, to a
    response (a string [answer] and an array [sources], by the type
    [response]); and when the answer is not taken from the cache, on
    every failure path the [sources] are empty. *)
Theorem processQuery_always_resolves (question : jsstring) (w : world) :
  exists (r : response) (w' : world),
    process question w = (Ok r, w')
    /\ (fresh (clock w) (queryCache w !! question) = false ->
        failure_path question w -> sources r = []).
Proof.
  rewrite processQuery_cases. unfold failure_path.
  assert (Hanswer : exists r w',
            answer_fresh question w = (Ok r, w')
            /\ (failure_path question w -> sources r = [])).
  { rewrite answer_query_cases. unfold failure_path.
    destruct (too_short_question question).
    { exists too_short, w. split; [reflexivity|]. reflexivity. }
    destruct (search question w) as [[posts|e] w1].
    - destruct (no_candidates posts).
      + exists no_posts, w1. split; reflexivity.
      + destruct (compose question (rank question posts 5)) as [r|e] eqn:Hcompose.
        * exists r, (stored question r w1). split; [reflexivity|].
          intros [Hshort|[Hnone|[Hrank|[e He]]]]; try discriminate.
          rewrite Hrank in Hcompose. now injection Hcompose as <-.
        * exists technical_error, w1. split; reflexivity.
    - exists technical_error, w1. split; reflexivity. }
  destruct (queryCache w !! question) as [entry|] eqn:Hentry.
  - cbn [fresh]. destruct (clock w - timestamp entry <? cacheExpiry)%Z.
    + exists (cached_response entry), w. split; [reflexivity | discriminate].
    + destruct Hanswer as (r & w' & Heq & Hfail). exists r, w'. auto.
  - destruct Hanswer as (r & w' & Heq & Hfail). exists r, w'. auto.
Qed.

(** C5: a question whose trimmed length is below 3 and that has no
    fresh cache entry gets the fixed guidance with empty [sources]; the
    world is left as it was, so no request was issued and nothing was
    stored. *)
Theorem short_question_gets_guidance (question : jsstring) (w : world) :
  length (trim question) < 3 ->
  fresh (clock w) (queryCache w !! question) = false ->
  process question w = (Ok too_short, w)
  /\ answer too_short = js "Моля, задайте по-конкретен въпрос (поне 3 символа)."
  /\ sources too_short = [].
Proof.
  intros Hshort Hmiss. split; [|split; reflexivity].
  rewrite processQuery_miss by assumption.
  now rewrite answer_query_cases, trimmed_short.
Qed.

(** C2: once a call has retrieved candidates and stored its response,
    a call for the same question less than 30 minutes (on the clock)
    after the entry was stamped returns that very response and leaves
    the world unchanged, so the transport is not invoked; 30 minutes or
    more after the stamp the lookup misses, and the call goes through
    retrieval again, issuing the direct request for the question. *)
Theorem repeated_query_and_ttl (question : jsstring) (w : world) (posts : json) (w1 : world) :
  fresh (clock w) (queryCache w !! question) = false ->
  too_short_question question = false ->
  search question w = (Ok posts, w1) ->
  no_candidates posts = false ->
  forall r : response,
  compose question (rank question posts 5) = Ok r ->
  process question w = (Ok r, stored question r w1)
  /\ forall w2 : world,
       queryCache w2 !! question = queryCache (stored question r w1) !! question ->
       ((clock w2 - clock w1 < cacheExpiry)%Z ->
        process question w2 = (Ok r, w2))
       /\ ((cacheExpiry <= clock w2 - clock w1)%Z ->
           process question w2 = answer_fresh question w2
           /\ exists rest,
                requests (snd (process question w2))
                = requests w2 ++ GetPosts question :: rest).
Proof.
  intros Hmiss Hlong Hsearch Hposts r Hcompose.
  destruct (computed_then_cached question w posts w1 Hmiss Hlong Hsearch Hposts r Hcompose)
    as (Hfirst & Hstored & Hhit).
  split; [exact Hfirst|].
  intros w2 Hsame. split; [now apply Hhit|].
  intros Hold. rewrite Hstored in Hsame.
  assert (Heq : process question w2 = answer_fresh question w2)
    by now apply (processQuery_expired question w2 _ Hsame).
  split; [exact Heq|].
  rewrite Heq, answer_query_cases, Hlong.
  destruct (searchPosts_requests fetch JSON_parse engine_message question w2)
    as (rest & Hreq).
  exists rest.
  destruct (search question w2) as [[posts2|e] w3]; cbn [snd] in *.
  - destruct (no_candidates posts2); [exact Hreq|].
    destruct (compose question (rank question posts2 5)); exact Hreq.
  - exact Hreq.
Qed.

(** C10: when the candidates are not empty and ranking yields nothing,
    the response composed is the fixed one with empty [sources]; it is
    stored under the raw question, and the same question asked again
    less than 30 minutes after the stamp gets it from the cache, the
    world unchanged, so no request is issued. *)
Theorem negative_answer_is_cached (question : jsstring) (w : world) (posts : json) (w1 : world) :
  fresh (clock w) (queryCache w !! question) = false ->
  too_short_question question = false ->
  search question w = (Ok posts, w1) ->
  no_candidates posts = false ->
  rank question posts 5 = [] ->
  compose question (rank question posts 5) = Ok no_relevant
  /\ answer no_relevant = js "За съжаление не намерих релевантна информация по този въпрос в публикациите на PostVai.com. Моля, опитайте с различни ключови думи."
  /\ sources no_relevant = []
  /\ process question w = (Ok no_relevant, stored question no_relevant w1)
  /\ queryCache (stored question no_relevant w1) !! question
     = Some (mkEntry no_relevant (clock w1))
  /\ forall w2 : world,
       queryCache w2 !! question = queryCache (stored question no_relevant w1) !! question ->
       (clock w2 - clock w1 < cacheExpiry)%Z ->
       process question w2 = (Ok no_relevant, w2)
       /\ requests (snd (process question w2)) = requests w2.
Proof.
  intros Hmiss Hlong Hsearch Hposts Hrank.
  assert (Hcompose : compose question (rank question posts 5) = Ok no_relevant)
    by now rewrite Hrank.
  destruct (computed_then_cached question w posts w1 Hmiss Hlong Hsearch Hposts
              no_relevant Hcompose) as (Hfirst & Hstored & Hhit).
  split; [exact Hcompose|]. split; [reflexivity|]. split; [reflexivity|].
  split; [exact Hfirst|]. split; [exact Hstored|].
  intros w2 Hsame Hfresh.
  rewrite (Hhit w2 Hsame Hfresh). split; reflexivity.
Qed.

(** C4: the fallback is tried only when the direct request fails with
    an error whose message matches the network patterns, and then it is
    tried; on any other failure, a status outside 200-299 among them, no
    relay request is issued and the error thrown makes [processQuery]
    answer with the technical-error response; the fallback itself never
    throws, and it yields the empty array unless the relay's envelope
    holds a payload that parses. *)
Theorem fallback_only_on_network_error :
  (forall (query : jsstring) (w : world),
     (exists e, primary_result (outcome_of fetch (GetPosts query) w) = Throw e
                /\ network_class (message_of engine_message e) = true
                /\ search query w = proxy query (after_fetch fetch (GetPosts query) w))
     \/ requests (snd (search query w)) = requests w ++ [GetPosts query])
  /\ (forall (query : jsstring) (w : world) (e : exn),
        primary_result (outcome_of fetch (GetPosts query) w) = Throw e ->
        network_class (message_of engine_message e) = false ->
        search query w = (Throw search_failed, after_fetch fetch (GetPosts query) w))
  /\ (forall (query : jsstring) (w : world) (status : nat) (body : result json),
        outcome_of fetch (GetPosts query) w = HttpResponse status body ->
        response_ok status = false ->
        search query w = (Throw search_failed, after_fetch fetch (GetPosts query) w))
  /\ (forall (question : jsstring) (w : world) (e : exn) (w1 : world),
        too_short_question question = false ->
        search question w = (Throw e, w1) ->
        answer_fresh question w = (Ok technical_error, w1))
  /\ (forall (query : jsstring) (w : world),
        exists v w',
          proxy query w = (Ok v, w')
          /\ (v = JArr []
              \/ exists status data c,
                   outcome_of fetch (GetViaProxy query) w = HttpResponse status (Ok data)
                   /\ get_prop (Some data) (js "contents") = Ok (Some c)
                   /\ truthy c = true
                   /\ JSON_parse c = Ok v)).
Proof.
  split; [|split; [|split; [|split]]].
  - intros query w. rewrite searchPosts_cases.
    destruct (primary_result _) as [v|e] eqn:Hres; [now right|].
    destruct (network_class _) eqn:Hclass; [|now right].
    left. exists e. auto.
  - intros query w e Hres Hclass. now rewrite searchPosts_cases, Hres, Hclass.
  - intros query w status body Hout Hbad.
    rewrite searchPosts_cases, Hout. cbn [primary_result]. rewrite Hbad.
    cbn [message_of]. now rewrite MessageFacts.http_message_not_network_class.
  - intros question w e w1 Hlong Hsearch.
    now rewrite answer_query_cases, Hlong, Hsearch.
  - intros query w.
    destruct (proxy_total fetch JSON_parse query w) as (v & w' & Heq).
    exists v, w'. split; [exact Heq|].
    eapply proxy_payload; eassumption.
Qed.

End Orchestrator.

(** ** Composition on a host whose DOM calls do not throw *)

Section TotalHost.
Variable visibleText : json -> result jsstring.
Variable toLocaleDateString : json -> jsstring.
Hypothesis dom_total : forall v, exists text, visibleText v = Ok text.

Lemma cleanHtml_total (htmlText : json) :
  exists text, cleanHtml visibleText htmlText = Ok text.
Proof using dom_total.
  unfold cleanHtml. destruct (negb (truthy htmlText)); [now exists []|].
  destruct (dom_total htmlText) as (text & ->). cbn [rbind]. eauto.
Qed.

Lemma map_result_total {A B} (f : A -> result B) (l : list A) :
  (forall x, exists y, f x = Ok y) -> exists ys, map_result f l = Ok ys.
Proof.
  intros Hf. induction l as [|x l (ys & IH)]; [now exists []|].
  destruct (Hf x) as (y & Hy). exists (y :: ys).
  cbn [map_result]. now rewrite Hy, IH.
Qed.

Lemma generateResponse_total (query : jsstring) (relevantPosts : list ranked_post) :
  exists r, generateResponse visibleText toLocaleDateString query relevantPosts = Ok r.
Proof using dom_total.
  unfold generateResponse. destruct relevantPosts as [|p rest]; [now exists no_relevant|].
  destruct (map_result_total (source_of visibleText toLocaleDateString) (p :: rest))
    as (sources & ->).
  { intros x. unfold source_of.
    destruct (cleanHtml_total (or_empty (get_prop_opt (ranked_get x (js "title"))
                                                      (js "rendered")))) as (t & ->).
    cbn [rbind]. eauto. }
  destruct (map_result_total (answer_part visibleText) (imap pair (p :: rest)))
    as (parts & ->).
  { intros [i x]. unfold answer_part.
    destruct (cleanHtml_total (or_empty (get_prop_opt (ranked_get x (js "title"))
                                                      (js "rendered")))) as (t & ->).
    destruct (cleanHtml_total (or_empty (get_prop_opt (ranked_get x (js "excerpt"))
                                                      (js "rendered")))) as (ex & ->).
    cbn [rbind]. eauto. }
  cbn [rbind]. eauto.
Qed.

End TotalHost.

(** ** The theorems at work on a concrete host *)

Lemma no_candidates_array (first : json) (others : list json) :
  no_candidates (JArr (first :: others)) = false.
Proof.
  unfold no_candidates, is_zero_val, get_length. cbn [truthy negb orb].
  destruct (Req_dec_T (INR (length (first :: others))) 0) as [H|_]; [|reflexivity].
  exfalso. revert H. apply not_0_INR. cbn. lia.
Qed.

Module Demo.

(** A site with one post about [abc], answered after 120 ms; the relay
    is down. *)
Definition one_post : json :=
  JObj [(js "title", JObj [(js "rendered", JStr (js "abc"))]);
        (js "content", JObj [(js "rendered", JStr (js "abc def"))])].

Definition fetch (rq : request) (earlier : list request) (now : Z) : fetch_outcome * Z :=
  match rq with
  | GetPosts _ => (HttpResponse 200 (Ok (JArr [one_post])), (now + 120)%Z)
  | GetViaProxy _ => (NetFailure (js "Failed to fetch"), now)
  end.

(** A site whose answer holds [null] where a post should be. *)
Definition fetch_null (rq : request) (earlier : list request) (now : Z)
    : fetch_outcome * Z :=
  match rq with
  | GetPosts _ => (HttpResponse 200 (Ok (JArr [JNull])), (now + 120)%Z)
  | GetViaProxy _ => (NetFailure (js "Failed to fetch"), now)
  end.

(** Text without markup or character references is its own visible
    text. *)
Definition visibleText (v : json) : result jsstring :=
  match v with
  | JStr s => Ok s
  | _ => Ok []
  end.

Definition JSON_parse (v : json) : result json := Throw (Error (js "Unexpected token")).
Definition toLocaleDateString (v : json) : jsstring := js "Invalid Date".
Definition engine_message (e : exn) : jsstring := js "TypeError".

(** The instance as the constructor leaves it, at time 0. *)
Definition start : world := mkWorld ∅ 0 [].

Definition after_first : world := mkWorld ∅ 120 [GetPosts (js "abc")].

Lemma search_abc :
  searchPosts fetch JSON_parse engine_message (js "abc") start
  = (Ok (JArr [one_post]), after_first).
Proof. vm_compute. reflexivity. Qed.

Lemma search_null :
  searchPosts fetch_null JSON_parse engine_message (js "abc") start
  = (Ok (JArr [JNull]), after_first).
Proof. vm_compute. reflexivity. Qed.

Lemma abc_long_enough : too_short_question (js "abc") = false.
Proof. vm_compute. reflexivity. Qed.

Lemma rank_null :
  rankRelevantPosts visibleText lower_ascii (js "abc") (JArr [JNull]) 5 = [].
Proof. unfold rankRelevantPosts. rewrite no_candidates_array. reflexivity. Qed.

(** The ranking of that one post for the question [abc]: the term
    [abc] is in both documents of the corpus, its weight is negative, and
    the two vectors are parallel. *)
Definition ln23 : R := ln (2 / 3).

Lemma texts_abc : map_result (post_text visibleText) [one_post] = Ok [js "abc abc def"].
Proof. vm_compute. reflexivity. Qed.

Lemma tokens_abc :
  map (preprocessText lower_ascii) [js "abc abc def"; js "abc"]
  = [[js "abc"; js "abc"; js "def"]; [js "abc"]].
Proof. vm_compute. reflexivity. Qed.

Lemma weight_value (processedDocs : list (list jsstring)) (words : list jsstring)
    (word : jsstring) (c n N df : nat) :
  count_of word words = c -> length words = n ->
  length processedDocs = N -> docFreq_of processedDocs word = df ->
  weight processedDocs words word = (INR c / INR n * ln (INR N / (1 + INR df)))%R.
Proof. intros <- <- <- <-. reflexivity. Qed.

Lemma vectors_abc :
  fst (createTfIdfVectors lower_ascii ([js "abc abc def"] ++ [js "abc"]))
  = [[Num (2 / 3 * ln23); Num 0]] ++ [[Num ln23; Num 0]].
Proof.
  rewrite vectors_weights. cbv zeta. cbn [app]. rewrite tokens_abc. cbn [fst].
  replace (vocabulary_of [[js "abc"; js "abc"; js "def"]; [js "abc"]])
    with [js "abc"; js "def"] by (vm_compute; reflexivity).
  cbn [map].
  rewrite (weight_value _ [js "abc"; js "abc"; js "def"] (js "abc") 2 3 2 2)
    by (vm_compute; reflexivity).
  rewrite (weight_value _ [js "abc"; js "abc"; js "def"] (js "def") 1 3 2 1)
    by (vm_compute; reflexivity).
  rewrite (weight_value _ [js "abc"] (js "abc") 1 1 2 2) by (vm_compute; reflexivity).
  rewrite (weight_value _ [js "abc"] (js "def") 0 1 2 1) by (vm_compute; reflexivity).
  cbn [INR]. unfold ln23.
  replace ((1 + 1) / (1 + (1 + 1)))%R with (2 / 3)%R by lra.
  replace ((1 + 1) / (1 + 1))%R with 1%R by lra. rewrite ln_1.
  repeat f_equal; lra.
Qed.

Lemma cosine_abc :
  cosineSimilarity [Num ln23; Num 0] [Num (2 / 3 * ln23); Num 0] = Num 1.
Proof.
  pose proof ln_two_thirds as HL. fold ln23 in HL.
  change [Num ln23; Num 0] with (map Num [ln23; 0%R]).
  change [Num (2 / 3 * ln23); Num 0] with (map Num [(2 / 3 * ln23)%R; 0%R]).
  rewrite cosine_finite by (cbn; lia).
  unfold normB_of, dot_of. cbn [length seq sum_over nth sum_squares].
  replace (ln23 * ln23 + (0 * 0 + 0))%R with (Rsqr ln23) by (unfold Rsqr; ring).
  replace (2 / 3 * ln23 * (2 / 3 * ln23) + (0 * 0 + 0))%R
    with (Rsqr (2 / 3 * ln23)) by (unfold Rsqr; ring).
  replace (ln23 * (2 / 3 * ln23) + (0 * 0 + 0))%R with (2 / 3 * (ln23 * ln23))%R by ring.
  assert (H1 : is_zero (Num (Rsqr ln23)) = false)
    by (apply is_zero_false; unfold Rsqr; nra).
  assert (H2 : is_zero (Num (Rsqr (2 / 3 * ln23))) = false)
    by (apply is_zero_false; unfold Rsqr; nra).
  rewrite H1, H2. cbn [orb]. f_equal.
  rewrite !sqrt_Rsqr_abs, !Rabs_left by lra.
  field. lra.
Qed.

Lemma rank_abc :
  rankRelevantPosts visibleText lower_ascii (js "abc") (JArr [one_post]) 5
  = [mkRanked (Some one_post) (Num 1)].
Proof.
  unfold rankRelevantPosts. rewrite no_candidates_array.
  assert (Hsims : similarities_of visibleText lower_ascii (js "abc") (JArr [one_post])
                  = Ok [mkScored 0 (Num 1) (Some one_post)]).
  { unfold similarities_of. rewrite texts_abc. cbn [rbind].
    rewrite vectors_abc, pop_app. cbn [imap map_result rbind].
    now rewrite cosine_abc. }
  rewrite Hsims. cbn [sort foldr sort_insert].
  rewrite filter_cons, decide_True, filter_nil; [reflexivity|].
  cbn [similarity]. apply Is_true_true, gt_num. lra.
Qed.

(** The response composed for one ranked post, and for the question
    [abc]. *)
Definition composed_with (score : jsnum) : response :=
  mkResponse
    (js "🔍 Намерих 1 релевантни публикации, които може да отговорят на въпроса ви:"
     ++ [10%N; 10%N] ++ js "**1. abc**"
     ++ [10%N] ++ js "Няма налично резюме."
     ++ [10%N; 10%N] ++ js "📚 За пълна информация, моля посетете линковете към публикациите.")
    [mkSource (js "abc") (JStr []) score []].

Definition composed : response := composed_with (Num 1).

Lemma compose_one (score : jsnum) :
  or_zero score = score ->
  generateResponse visibleText toLocaleDateString (js "abc") [mkRanked (Some one_post) score]
  = Ok (composed_with score).
Proof.
  intros Hscore. unfold generateResponse. cbn [map_result imap].
  unfold source_of. cbn [similarity_score]. rewrite Hscore.
  vm_compute. reflexivity.
Qed.

Lemma compose_abc :
  generateResponse visibleText toLocaleDateString (js "abc")
    (rankRelevantPosts visibleText lower_ascii (js "abc") (JArr [one_post]) 5)
  = Ok composed.
Proof.
  rewrite rank_abc. apply compose_one.
  unfold or_zero. destruct (Req_dec_T 1 0); [lra | reflexivity].
Qed.

End Demo.

(** C5 on the question [ hi ], asked of a new instance. *)
Lemma short_question_gets_guidance_witness :
  processQuery Demo.fetch Demo.visibleText lower_ascii Demo.JSON_parse
               Demo.toLocaleDateString Demo.engine_message (js " hi ") Demo.start
  = (Ok too_short, Demo.start)
  /\ answer too_short = js "Моля, задайте по-конкретен въпрос (поне 3 символа)."
  /\ sources too_short = [].
Proof.
  apply short_question_gets_guidance.
  - vm_compute. lia.
  - reflexivity.
Defined.

(** C2 on the question [abc], asked of a new instance whose site holds
    one post. *)
Lemma repeated_query_and_ttl_witness :
  let r := Demo.composed in
  let process := processQuery Demo.fetch Demo.visibleText lower_ascii Demo.JSON_parse
                              Demo.toLocaleDateString Demo.engine_message in
  process (js "abc") Demo.start = (Ok r, stored (js "abc") r Demo.after_first)
  /\ forall w2 : world,
       queryCache w2 !! js "abc" = queryCache (stored (js "abc") r Demo.after_first) !! js "abc" ->
       ((clock w2 - clock Demo.after_first < cacheExpiry)%Z ->
        process (js "abc") w2 = (Ok r, w2))
       /\ ((cacheExpiry <= clock w2 - clock Demo.after_first)%Z ->
           process (js "abc") w2
           = answer_query Demo.fetch Demo.visibleText lower_ascii Demo.JSON_parse
                          Demo.toLocaleDateString Demo.engine_message (js "abc") w2
           /\ exists rest,
                requests (snd (process (js "abc") w2))
                = requests w2 ++ GetPosts (js "abc") :: rest).
Proof.
  apply (repeated_query_and_ttl Demo.fetch Demo.visibleText lower_ascii Demo.JSON_parse
           Demo.toLocaleDateString Demo.engine_message (js "abc") Demo.start
           (JArr [Demo.one_post]) Demo.after_first).
  - reflexivity.
  - exact Demo.abc_long_enough.
  - exact Demo.search_abc.
  - apply no_candidates_array.
  - exact Demo.compose_abc.
Defined.

(** C10 on the question [abc], asked of a new instance whose site
    answers with [[null]]: scoring throws, the ranking is empty. *)
Lemma negative_answer_is_cached_witness :
  let r := no_relevant in
  let process := processQuery Demo.fetch_null Demo.visibleText lower_ascii Demo.JSON_parse
                              Demo.toLocaleDateString Demo.engine_message in
  generateResponse Demo.visibleText Demo.toLocaleDateString (js "abc")
    (rankRelevantPosts Demo.visibleText lower_ascii (js "abc") (JArr [JNull]) 5) = Ok r
  /\ answer r = js "За съжаление не намерих релевантна информация по този въпрос в публикациите на PostVai.com. Моля, опитайте с различни ключови думи."
  /\ sources r = []
  /\ process (js "abc") Demo.start = (Ok r, stored (js "abc") r Demo.after_first)
  /\ queryCache (stored (js "abc") r Demo.after_first) !! js "abc"
     = Some (mkEntry r (clock Demo.after_first))
  /\ forall w2 : world,
       queryCache w2 !! js "abc" = queryCache (stored (js "abc") r Demo.after_first) !! js "abc" ->
       (clock w2 - clock Demo.after_first < cacheExpiry)%Z ->
       process (js "abc") w2 = (Ok r, w2)
       /\ requests (snd (process (js "abc") w2)) = requests w2.
Proof.
  apply (negative_answer_is_cached Demo.fetch_null Demo.visibleText lower_ascii
           Demo.JSON_parse Demo.toLocaleDateString Demo.engine_message (js "abc")
           Demo.start (JArr [JNull]) Demo.after_first).
  - reflexivity.
  - exact Demo.abc_long_enough.
  - exact Demo.search_null.
  - apply no_candidates_array.
  - exact Demo.rank_null.
Defined.



(** ** The normaliser and the ranker on small inputs *)

Module Examples.

Example tokenize_short_and_punctuation :
  preprocessText lower_ascii (js "тест AI, то е: Fake-News 2024!")
  = [js "тест"; js "fake"; js "news"; js "2024"].
Proof. vm_compute. reflexivity. Qed.

Example cleanHtml_entities :
  cleanHtml (fun _ => Ok (js "  Hi &amp;amp; &lt;b&gt;  bye&hellip; "))
            (JStr (js "x"))
  = Ok (js "Hi &amp; <b> bye...").
Proof. vm_compute. reflexivity. Qed.

Example cleanHtml_empty : cleanHtml (fun _ => Throw TypeError) (JStr []) = Ok [].
Proof. reflexivity. Qed.

Definition scores (l : list R) : list scored :=
  imap (fun i r => mkScored i (Num r) None) l.

Lemma gt_true (x y : R) : (y < x)%R -> gt (Num x) (Num y) = true.
Proof. apply gt_num. Qed.

Lemma gt_false (x y : R) : (x <= y)%R -> gt (Num x) (Num y) = false.
Proof.
  intros H. destruct (gt (Num x) (Num y)) eqn:E; [|reflexivity].
  apply gt_num in E. lra.
Qed.

Ltac compare_scores :=
  repeat (first [ rewrite gt_true by lra | rewrite gt_false by lra ];
          cbn [sort_insert similarity]; rewrite ?sub_num).

(** Similarities 0.9, 0.005, 0.2, 0.5: the second is dropped, the others
    come out in descending order. *)
Example ranker_ordering :
  map similarity
      (take 5 (filter above_threshold
                 (sort by_similarity (scores [9 / 10; 1 / 200; 2 / 10; 5 / 10]%R))))
  = [Num (9 / 10); Num (5 / 10); Num (2 / 10)].
Proof.
  unfold scores, sort. cbn [imap foldr sort_insert compose].
  unfold by_similarity. cbn [similarity]. rewrite !sub_num. compare_scores.
  rewrite !filter_cons, filter_nil. unfold above_threshold. cbn [similarity].
  compare_scores. reflexivity.
Qed.

(** Equal similarities keep the order of the posts. *)
Example ranker_ties :
  map index (sort by_similarity (scores [1 / 2; 3 / 4; 1 / 2; 3 / 4]%R)) = [1; 3; 0; 2].
Proof.
  unfold scores, sort. cbn [imap foldr sort_insert compose].
  unfold by_similarity. cbn [similarity]. rewrite !sub_num. compare_scores.
  reflexivity.
Qed.

End Examples.

(** * Further properties of the code *)

(** ** Trimming, collapsing and splitting *)

Module TextFacts.

Definition not_space (c : N) : Prop := is_space c = false.

(** The first code unit, if any, is not white space. *)
Definition starts_clean (s : jsstring) : Prop :=
  match s with
  | [] => True
  | c :: _ => not_space c
  end.

Lemma trimStart_split (s : jsstring) :
  exists pre, s = pre ++ trimStart s /\ Forall (fun c => is_space c = true) pre.
Proof.
  induction s as [|c s (pre & Hs & Hpre)]; [now exists []|].
  cbn [trimStart]. destruct (is_space c) eqn:Hc.
  - exists (c :: pre). split; [cbn; now f_equal | now constructor].
  - now exists [].
Qed.

Lemma trimStart_clean (s : jsstring) : starts_clean (trimStart s).
Proof.
  induction s as [|c s IH]; [exact I|].
  cbn [trimStart]. destruct (is_space c) eqn:Hc; [assumption | exact Hc].
Qed.

Lemma trimStart_fixed (s : jsstring) : starts_clean s -> trimStart s = s.
Proof. destruct s as [|c s]; [reflexivity|]. cbn. now intros ->. Qed.

Lemma starts_clean_app (s t : jsstring) :
  starts_clean (s ++ t) -> s <> [] -> starts_clean s.
Proof. destruct s; [congruence | auto]. Qed.

(** [trim] cuts a run of white space at each end and nothing else. *)
Lemma trim_split (s : jsstring) :
  exists pre post,
    s = pre ++ trim s ++ post
    /\ Forall (fun c => is_space c = true) pre
    /\ Forall (fun c => is_space c = true) post.
Proof.
  unfold trim.
  destruct (trimStart_split s) as (pre & Hs & Hpre).
  destruct (trimStart_split (rev (trimStart s))) as (q & Hq & Hqs).
  exists pre, (rev q). split; [|split; [assumption | now apply Forall_rev]].
  rewrite Hs at 1. f_equal.
  rewrite <- (rev_involutive (trimStart s)) at 1. rewrite Hq at 1.
  now rewrite rev_app_distr.
Qed.

Lemma trim_starts_clean (s : jsstring) : starts_clean (trim s).
Proof.
  unfold trim.
  destruct (trimStart_split (rev (trimStart s))) as (q & Hq & _).
  set (u := trimStart (rev (trimStart s))) in *.
  destruct (rev u) as [|c r] eqn:Hu; [exact I|].
  assert (Ht : trimStart s = rev u ++ rev q).
  { rewrite <- (rev_involutive (trimStart s)), Hq. apply rev_app_distr. }
  pose proof (trimStart_clean s) as Hclean. rewrite Ht, Hu in Hclean. exact Hclean.
Qed.

Lemma trim_ends_clean (s : jsstring) : starts_clean (rev (trim s)).
Proof. unfold trim. rewrite rev_involutive. apply trimStart_clean. Qed.

Lemma trim_fixed (s : jsstring) :
  starts_clean s -> starts_clean (rev s) -> trim s = s.
Proof.
  intros Hs Hr. unfold trim.
  now rewrite (trimStart_fixed s Hs), (trimStart_fixed (rev s) Hr), rev_involutive.
Qed.

Lemma trim_idempotent (s : jsstring) : trim (trim s) = trim s.
Proof. apply trim_fixed; [apply trim_starts_clean | apply trim_ends_clean]. Qed.

(** White space in [s] is the single code unit U+0020 and never follows
    white space; [after_space] tells that a white-space code unit stands
    just before [s]. *)
Fixpoint single_spaced (after_space : bool) (s : jsstring) : Prop :=
  match s with
  | [] => True
  | c :: s' =>
      if is_space c
      then c = 32%N /\ after_space = false /\ single_spaced true s'
      else single_spaced false s'
  end.

Lemma collapse_go_single_spaced (s : jsstring) :
  forall in_run, single_spaced in_run (collapse_go in_run s).
Proof.
  induction s as [|c s IH]; intros in_run; [exact I|].
  cbn [collapse_go]. destruct (is_space c) eqn:Hc.
  - destruct in_run; [apply IH|].
    cbn [single_spaced]. replace (is_space 32) with true by reflexivity. auto.
  - cbn [single_spaced]. rewrite Hc. apply IH.
Qed.

Lemma single_spaced_weaken (s : jsstring) (b : bool) :
  single_spaced b s -> single_spaced false s.
Proof.
  destruct s as [|c s]; [auto|]. cbn. destruct (is_space c); [|auto].
  intros (-> & _ & H). auto.
Qed.

Lemma single_spaced_suffix (pre s : jsstring) :
  forall b, single_spaced b (pre ++ s) -> single_spaced false s.
Proof.
  induction pre as [|c pre IH]; intros b H; [now apply single_spaced_weaken in H|].
  cbn in H. destruct (is_space c); [destruct H as (_ & _ & H)|]; eapply IH; eassumption.
Qed.

Lemma single_spaced_prefix (s post : jsstring) :
  forall b, single_spaced b (s ++ post) -> single_spaced b s.
Proof.
  induction s as [|c s IH]; intros b H; [exact I|].
  cbn in *. destruct (is_space c); [|now apply IH].
  destruct H as (? & ? & H). auto.
Qed.

Lemma trim_single_spaced (s : jsstring) (b : bool) :
  single_spaced b s -> single_spaced false (trim s).
Proof.
  intros H. destruct (trim_split s) as (pre & post & Hs & _).
  rewrite Hs in H. apply single_spaced_suffix in H.
  now apply single_spaced_prefix in H.
Qed.

(** Code units of the results come from the argument ([collapse] may add
    U+0020). *)
Lemma collapse_go_Forall (P : N -> Prop) (s : jsstring) :
  P 32%N -> Forall P s -> forall in_run, Forall P (collapse_go in_run s).
Proof.
  intros Hsp Hs. induction Hs as [|c s Hc Hs IH]; intros in_run; [constructor|].
  cbn [collapse_go]. destruct (is_space c); [destruct in_run|]; auto.
Qed.

Lemma trim_Forall (P : N -> Prop) (s : jsstring) : Forall P s -> Forall P (trim s).
Proof.
  intros H. destruct (trim_split s) as (pre & post & Hs & _).
  rewrite Hs in H. apply Forall_app in H as [_ H]. now apply Forall_app in H as [H _].
Qed.

(** Every piece [split] cuts holds no white space. *)
Lemma split_go_pieces (P : N -> Prop) (s : jsstring) :
  Forall P s ->
  forall cur in_run,
    Forall (fun c => P c /\ not_space c) cur ->
    Forall (Forall (fun c => P c /\ not_space c)) (split_go cur in_run s).
Proof.
  intros Hs. induction Hs as [|c s Hc Hs IH]; intros cur in_run Hcur; cbn [split_go].
  - constructor; [now apply Forall_rev | constructor].
  - destruct (is_space c) eqn:Hsp.
    + destruct in_run; [now apply IH|].
      constructor; [now apply Forall_rev | apply IH; constructor].
    + apply IH. constructor; [split; assumption | assumption].
Qed.

Definition kept_unit (c : N) : Prop := is_cyrillic c || is_word c = true.

Lemma preprocessText_tokens (toLowerCase : jsstring -> jsstring) (text : jsstring) :
  Forall (fun word =>
            3 <= length word /\ Forall (fun c => kept_unit c /\ not_space c) word)
         (preprocessText toLowerCase text).
Proof.
  unfold preprocessText. cbv zeta.
  set (kept := map _ (toLowerCase text)).
  assert (Hkept : Forall (fun c => is_cyrillic c || is_word c || is_space c = true) kept).
  { unfold kept. apply List.Forall_map. apply Forall_forall. intros c _.
    destruct (is_cyrillic c || is_word c || is_space c) eqn:E; [exact E | reflexivity]. }
  assert (Hpieces :
    Forall (Forall (fun c => is_cyrillic c || is_word c || is_space c = true /\ not_space c))
           (split_spaces (trim (collapse_spaces kept)))).
  { apply split_go_pieces; [|constructor].
    apply trim_Forall, collapse_go_Forall; [reflexivity | assumption]. }
  apply Forall_forall. intros word Hword.
  apply list_elem_of_filter in Hword as [Hlen Hin].
  split; [lia|].
  rewrite Forall_forall in Hpieces. specialize (Hpieces word Hin).
  eapply Forall_impl; [exact Hpieces|].
  intros c [Hc Hns]. split; [|exact Hns].
  unfold kept_unit, not_space in *. rewrite Hns, orb_false_r in Hc. exact Hc.
Qed.

End TextFacts.

Import TextFacts.

(** X1: [trim] drops a run of white space at each end of the string and
    nothing else: what is left neither starts nor ends with white space,
    and trimming it again changes nothing. *)
Theorem trim_cuts_edge_space (s : jsstring) :
  (exists pre post,
     s = pre ++ trim s ++ post
     /\ Forall (fun c => is_space c = true) pre
     /\ Forall (fun c => is_space c = true) post)
  /\ starts_clean (trim s)
  /\ starts_clean (rev (trim s))
  /\ trim (trim s) = trim s.
Proof.
  split; [apply trim_split|]. split; [apply trim_starts_clean|].
  split; [apply trim_ends_clean | apply trim_idempotent].
Qed.

(** X2: whatever [toLowerCase] does, every token of [preprocessText] has
    at least 3 code units, each of them a Cyrillic letter of the block
    U+0400-U+04FF, a Latin letter, a digit or the underscore: no white
    space and no punctuation gets into a token. *)
Theorem tokens_are_long_words (toLowerCase : jsstring -> jsstring) (text : jsstring) :
  Forall (fun word =>
            3 <= length word
            /\ Forall (fun c => is_cyrillic c || is_word c = true) word
            /\ Forall (fun c => is_space c = false) word)
         (preprocessText toLowerCase text).
Proof.
  eapply Forall_impl; [apply preprocessText_tokens|].
  intros word [Hlen Hkept]. split; [assumption|].
  split; (eapply Forall_impl; [exact Hkept|]); now intros c [Hc Hns].
Qed.

Lemma replace_go_absent (pat rep s : jsstring) :
  includes s pat = false -> replace_go pat rep O s = s.
Proof.
  induction s as [|c s IH]; [reflexivity|].
  unfold includes; fold includes. intros H. apply orb_false_iff in H as [Hhere Hlater].
  cbn [replace_go]. rewrite Hhere. f_equal. now apply IH.
Qed.

Lemma replaceAll_absent_head (pat rep s : jsstring) (p : N) (rest : jsstring) :
  pat = p :: rest -> ~ In p s -> replaceAll pat rep s = s.
Proof.
  intros -> Hp. apply replace_go_absent.
  destruct (includes s (p :: rest)) eqn:E; [|reflexivity].
  exfalso. now apply Hp, (MessageFacts.includes_head p rest).
Qed.

(** X3: the text [cleanHtml] returns is in normal form: it neither starts
    nor ends with white space, its only white space is the single code
    unit U+0020, never twice in a row; and a falsy argument gives the
    empty string without touching the DOM. *)
Theorem cleanHtml_normal_form (visibleText : json -> result jsstring) (htmlText : json) :
  match cleanHtml visibleText htmlText with
  | Ok text =>
      starts_clean text /\ starts_clean (rev text) /\ single_spaced false text
      /\ trim text = text
      /\ (truthy htmlText = false -> text = [])
  | Throw e => truthy htmlText = true /\ visibleText htmlText = Throw e
  end.
Proof.
  unfold cleanHtml. destruct (truthy htmlText); cbn [negb].
  - destruct (visibleText htmlText) as [text|e]; cbn [rbind]; [|auto].
    split; [apply trim_starts_clean|]. split; [apply trim_ends_clean|].
    split; [|split; [apply trim_idempotent | discriminate]].
    eapply trim_single_spaced. apply collapse_go_single_spaced.
  - cbn. repeat split.
Qed.

(** X4: the seven entity replacements touch only text that holds an
    ampersand: visible text without one is returned as it is, but for the
    white space, which is collapsed and trimmed. *)
Theorem cleanHtml_without_ampersand
    (visibleText : json -> result jsstring) (htmlText : json) (text : jsstring) :
  truthy htmlText = true ->
  visibleText htmlText = Ok text ->
  ~ In 38%N text ->
  cleanHtml visibleText htmlText = Ok (trim (collapse_spaces text)).
Proof.
  intros Htruthy Htext Hamp. unfold cleanHtml. rewrite Htruthy, Htext. cbn [negb rbind].
  cbv zeta.
  repeat (erewrite (replaceAll_absent_head _ _ text);
          [ | vm_compute; reflexivity | exact Hamp ]).
  reflexivity.
Qed.

(** X4 on the text [a  b ] of a host whose DOM gives it back. *)
Lemma cleanHtml_without_ampersand_witness :
  cleanHtml (fun _ => Ok (js "a  b ")) (JStr (js "x"))
  = Ok (trim (collapse_spaces (js "a  b "))).
Proof.
  apply (cleanHtml_without_ampersand (fun _ => Ok (js "a  b ")) (JStr (js "x")) (js "a  b ")).
  - reflexivity.
  - reflexivity.
  - vm_compute. intuition discriminate.
Defined.

(** ** The vocabulary and the sign of the weights *)

Module WeightFacts.
Local Open Scope R_scope.

Lemma idf_ratio (processedDocs : list (list jsstring)) (word : jsstring) :
  (0 < 1 + INR (docFreq_of processedDocs word))%R.
Proof. pose proof (pos_INR (docFreq_of processedDocs word)). lra. Qed.

Lemma idf_real_zero (processedDocs : list (list jsstring)) (word : jsstring) :
  (docFreq_of processedDocs word + 1 = length processedDocs)%nat ->
  idf_real processedDocs word = 0.
Proof.
  intros Heq. unfold idf_real. rewrite <- Heq, plus_INR. cbn [INR].
  pose proof (idf_ratio processedDocs word).
  replace ((INR (docFreq_of processedDocs word) + 1)
           / (1 + INR (docFreq_of processedDocs word))) with 1 by (field; lra).
  apply ln_1.
Qed.

Lemma idf_real_pos (processedDocs : list (list jsstring)) (word : jsstring) :
  (docFreq_of processedDocs word + 1 < length processedDocs)%nat ->
  0 < idf_real processedDocs word.
Proof.
  intros Hlt. unfold idf_real. rewrite <- ln_1.
  pose proof (idf_ratio processedDocs word) as Hpos.
  apply lt_INR in Hlt. rewrite plus_INR in Hlt. cbn [INR] in Hlt.
  apply ln_increasing; [lra|].
  apply (Rmult_lt_reg_r (1 + INR (docFreq_of processedDocs word))); [assumption|].
  unfold Rdiv. rewrite Rmult_assoc, Rinv_l by lra. lra.
Qed.

(** The sign of a weight, by whether the word is in the document and in
    how many documents it occurs. *)
Lemma weight_cases (processedDocs : list (list jsstring)) (words : list jsstring)
    (word : jsstring) :
  processedDocs <> [] ->
  ((word ∉ words) /\ weight processedDocs words word = 0)
  \/ ((word ∈ words)
      /\ ((docFreq_of processedDocs word + 1 < length processedDocs)%nat
          /\ 0 < weight processedDocs words word
          \/ (docFreq_of processedDocs word + 1 = length processedDocs)%nat
             /\ weight processedDocs words word = 0
          \/ docFreq_of processedDocs word = length processedDocs
             /\ weight processedDocs words word < 0)).
Proof.
  intros Hne. unfold weight.
  destruct (decide (word ∈ words)) as [Hin|Hnin].
  - right. split; [assumption|].
    pose proof (tf_real_pos words word Hin) as Htf.
    pose proof (docFreq_le processedDocs word) as Hle.
    destruct (Nat.lt_trichotomy (docFreq_of processedDocs word + 1) (length processedDocs))
      as [Hlt|[Heq|Hgt]].
    + left. split; [assumption|].
      apply Rmult_lt_0_compat; [assumption | now apply idf_real_pos].
    + right. left. split; [assumption|]. rewrite idf_real_zero by assumption. lra.
    + right. right. assert (Hall : docFreq_of processedDocs word = length processedDocs) by lia.
      split; [assumption|].
      pose proof (idf_real_negative processedDocs word Hne Hall). nra.
  - left. split; [assumption|]. rewrite tf_real_absent by assumption. lra.
Qed.

Lemma sum_over_scale (l : list nat) (k : R) (f : nat -> R) :
  sum_over l (fun i => k * f i) = k * sum_over l f.
Proof. induction l as [|i l IH]; cbn [sum_over]; [lra | rewrite IH; lra]. Qed.

Lemma sum_over_ext (l : list nat) (f g : nat -> R) :
  (forall i, In i l -> f i = g i) -> sum_over l f = sum_over l g.
Proof.
  induction l as [|i l IH]; intros H; cbn [sum_over]; [reflexivity|].
  rewrite (H i) by now left. rewrite IH; [reflexivity|]. intros; apply H; now right.
Qed.

Lemma nth_scaled (c : R) (a : list R) (i : nat) :
  nth i (map (Rmult c) a) 0 = c * nth i a 0.
Proof.
  revert i. induction a as [|x a IH]; intros [|i]; cbn [map nth]; try lra. apply IH.
Qed.

Lemma mul_comm (a b : jsnum) : JsNum.mul a b = JsNum.mul b a.
Proof. destruct a, b; cbn; try reflexivity. f_equal. lra. Qed.

Lemma acc_sum_comm (u v : list jsnum) (l : list nat) :
  forall init, acc_sum u v init l = acc_sum v u init l.
Proof.
  unfold acc_sum. induction l as [|i l IH]; intros init; cbn [foldl]; [reflexivity|].
  rewrite IH. now rewrite (mul_comm (at_index u i)).
Qed.

(** Two documents of one corpus without a common token have the dot
    product 0. *)
Lemma disjoint_dot (processedDocs : list (list jsstring)) (vocabArray : list jsstring)
    (wordsA wordsB : list jsstring) :
  (forall word, word ∈ wordsA -> word ∉ wordsB) ->
  dot_of (map (weight processedDocs wordsA) vocabArray)
         (map (weight processedDocs wordsB) vocabArray) = 0.
Proof.
  intros Hdisjoint. unfold dot_of. apply sum_over_zero. intros i Hi.
  apply in_seq_lt in Hi. rewrite length_map in Hi.
  rewrite (nth_indep (map (weight processedDocs wordsA) vocabArray) 0
             (weight processedDocs wordsA [])) by now rewrite length_map.
  rewrite (nth_indep (map (weight processedDocs wordsB) vocabArray) 0
             (weight processedDocs wordsB [])) by now rewrite length_map.
  rewrite (map_nth (weight processedDocs wordsA)), (map_nth (weight processedDocs wordsB)).
  set (word := nth i vocabArray []). unfold weight.
  destruct (decide (word ∈ wordsA)) as [HA|HA].
  - rewrite (tf_real_absent wordsB word) by now apply Hdisjoint. lra.
  - rewrite (tf_real_absent wordsA word) by assumption. lra.
Qed.

Lemma disjoint_cosine (processedDocs : list (list jsstring)) (vocabArray : list jsstring)
    (wordsA wordsB : list jsstring) :
  (forall word, word ∈ wordsA -> word ∉ wordsB) ->
  cosineSimilarity (map Num (map (weight processedDocs wordsA) vocabArray))
                   (map Num (map (weight processedDocs wordsB) vocabArray)) = Num 0.
Proof.
  intros Hdisjoint. rewrite cosine_finite by now rewrite !length_map.
  rewrite disjoint_dot by assumption.
  destruct (_ || _); [reflexivity|]. f_equal. unfold Rdiv. apply Rmult_0_l.
Qed.

Lemma shared_or_disjoint (wordsA wordsB : list jsstring) :
  (exists word, word ∈ wordsA /\ word ∈ wordsB)
  \/ (forall word, word ∈ wordsA -> word ∉ wordsB).
Proof.
  induction wordsA as [|x wordsA [(word & HA & HB)|IH]].
  - right. intros word H. inversion H.
  - left. exists word. split; [now right | assumption].
  - destruct (decide (x ∈ wordsB)) as [Hx|Hx].
    + left. exists x. split; [now left | assumption].
    + right. intros word Hin. apply elem_of_cons in Hin as [->|Hin]; auto.
Qed.

End WeightFacts.

Import WeightFacts.

(** X5: the vocabulary [createTfIdfVectors] returns lists every token of
    the corpus once: it has no duplicate, a word is in it exactly when
    some document holds it as a token, and so each of its words has at
    least 3 code units; there is one vector for each document. *)
Theorem vocabulary_is_token_set (toLowerCase : jsstring -> jsstring)
    (documents : list jsstring) :
  let processedDocs := map (preprocessText toLowerCase) documents in
  let vocabulary := snd (createTfIdfVectors toLowerCase documents) in
  NoDup vocabulary
  /\ (forall word, word ∈ vocabulary
                   <-> exists document, document ∈ documents
                         /\ word ∈ preprocessText toLowerCase document)
  /\ Forall (fun word => 3 <= length word) vocabulary
  /\ length (fst (createTfIdfVectors toLowerCase documents)) = length documents.
Proof.
  intros processedDocs vocabulary.
  assert (Hmem : forall word, word ∈ vocabulary
                   <-> exists document, document ∈ documents
                         /\ word ∈ preprocessText toLowerCase document).
  { intros word. unfold vocabulary, createTfIdfVectors. cbn [snd].
    rewrite vocabulary_elem. split.
    - intros (words & Hwords & Hword).
      apply list_elem_of_fmap in Hwords as (document & -> & Hdoc). eauto.
    - intros (document & Hdoc & Hword).
      exists (preprocessText toLowerCase document). split; [|assumption].
      apply list_elem_of_fmap. eauto. }
  split; [apply vocabulary_NoDup|]. split; [exact Hmem|]. split.
  - apply Forall_forall. intros word Hword.
    apply Hmem in Hword as (document & _ & Hword).
    pose proof (preprocessText_tokens toLowerCase document) as Htokens.
    rewrite Forall_forall in Htokens. now destruct (Htokens word Hword).
  - unfold createTfIdfVectors. cbn [fst]. now rewrite !length_map.
Qed.

(** X6: the sign of every component is settled by two counts.  The
    component of a document's vector at a term is the weight of the term
    in the document; for a term of the vocabulary, found in [df] of the
    [n] documents (1 <= df <= n), that weight is 0 exactly when the
    document lacks the term or df = n - 1, positive exactly when the
    document holds it and df < n - 1, negative exactly when the document
    holds it and df = n. *)
Theorem weight_sign (toLowerCase : jsstring -> jsstring) (documents : list jsstring) :
  let processedDocs := map (preprocessText toLowerCase) documents in
  let vocabulary := snd (createTfIdfVectors toLowerCase documents) in
  fst (createTfIdfVectors toLowerCase documents)
  = map (fun words => map (fun word => Num (weight processedDocs words word)) vocabulary)
        processedDocs
  /\ Forall (fun words =>
    Forall (fun word =>
      1 <= docFreq_of processedDocs word <= length processedDocs
      /\ (weight processedDocs words word = 0%R
          <-> word ∉ words \/ docFreq_of processedDocs word + 1 = length processedDocs)
      /\ ((0 < weight processedDocs words word)%R
          <-> word ∈ words /\ docFreq_of processedDocs word + 1 < length processedDocs)
      /\ ((weight processedDocs words word < 0)%R
          <-> word ∈ words /\ docFreq_of processedDocs word = length processedDocs))
      vocabulary) processedDocs.
Proof.
  intros processedDocs vocabulary.
  split; [unfold vocabulary; rewrite vectors_weights; reflexivity|].
  apply Forall_forall. intros words Hwords. apply Forall_forall. intros word Hword.
  assert (Hne : processedDocs <> []) by (intros E; rewrite E in Hwords; inversion Hwords).
  pose proof (docFreq_pos processedDocs word Hword) as Hpos.
  pose proof (docFreq_le processedDocs word) as Hle.
  split; [lia|].
  destruct (weight_cases processedDocs words word Hne)
    as [[Hout H0]|[Hin [[Hc Hw]|[[Hc Hw]|[Hc Hw]]]]];
    repeat match goal with
           | |- _ /\ _ => split
           | |- _ <-> _ => split
           | |- _ -> _ => intro
           | H : _ /\ _ |- _ => destruct H
           | H : _ \/ _ |- _ => destruct H
           end;
    try contradiction; try lia; try lra; try assumption;
    try (left; assumption); try (right; lia).
Qed.

(** X7: on two vectors of one length [cosineSimilarity] is symmetric,
    whatever the components are ([NaN] and the infinities included). *)
Theorem cosine_symmetric (vecA vecB : list jsnum) :
  length vecA = length vecB ->
  cosineSimilarity vecA vecB = cosineSimilarity vecB vecA.
Proof.
  intros Hlen. rewrite !cosine_unfold. cbv zeta. rewrite <- Hlen.
  rewrite (acc_sum_comm vecB vecA).
  rewrite (orb_comm (is_zero (acc_sum vecB vecB _ _))).
  rewrite (mul_comm (sqrt (acc_sum vecB vecB _ _))). reflexivity.
Qed.

(** X7 on a vector with [NaN] and one with [Infinity]. *)
Lemma cosine_symmetric_witness :
  cosineSimilarity [Num 1; NaN] [PInf; Num 2] = cosineSimilarity [PInf; Num 2] [Num 1; NaN].
Proof. apply (cosine_symmetric [Num 1; NaN] [PInf; Num 2]). reflexivity. Defined.

(** X8: the similarity does not see the length of a vector: a finite
    vector that is not zero and a positive multiple of it score
    exactly 1. *)
Theorem cosine_of_parallel_vectors (a : list R) (c : R) :
  (0 < c)%R ->
  sum_squares a <> 0%R ->
  cosineSimilarity (map Num a) (map Num (map (Rmult c) a)) = Num 1.
Proof.
  intros Hc Hnz. rewrite cosine_finite by now rewrite length_map.
  pose proof (sum_squares_ge0 a) as Hge.
  assert (HnB : normB_of a (map (Rmult c) a) = (c * c * sum_squares a)%R).
  { unfold normB_of. rewrite <- sum_squares_seq, <- sum_over_scale.
    apply sum_over_ext. intros i _. rewrite nth_scaled. ring. }
  assert (Hdot : dot_of a (map (Rmult c) a) = (c * sum_squares a)%R).
  { unfold dot_of. rewrite <- sum_squares_seq, <- sum_over_scale.
    apply sum_over_ext. intros i _. rewrite nth_scaled. ring. }
  rewrite HnB, Hdot.
  assert (HA : is_zero (Num (sum_squares a)) = false) by now apply is_zero_false.
  assert (HB : is_zero (Num (c * c * sum_squares a)) = false).
  { apply is_zero_false. intros E. apply Hnz.
    assert (0 < c * c)%R by nra. nra. }
  rewrite HA, HB. cbn [orb]. f_equal.
  rewrite sqrt_mult by nra. rewrite sqrt_square by lra.
  assert (Hs : (0 < R_sqrt.sqrt (sum_squares a))%R) by (apply sqrt_lt_R0; lra).
  replace (R_sqrt.sqrt (sum_squares a) * (c * R_sqrt.sqrt (sum_squares a)))%R
    with (c * (R_sqrt.sqrt (sum_squares a) * R_sqrt.sqrt (sum_squares a)))%R by ring.
  rewrite sqrt_sqrt by assumption. field. split; lra.
Qed.

(** X8 on the vector (3, 4) and its double. *)
Lemma cosine_of_parallel_vectors_witness :
  cosineSimilarity (map Num [3%R; 4%R]) (map Num (map (Rmult 2) [3%R; 4%R])) = Num 1.
Proof.
  apply (cosine_of_parallel_vectors [3%R; 4%R] 2%R).
  - lra.
  - cbn [sum_squares]. lra.
Defined.

(** X9: two documents of one [createTfIdfVectors] call that have no token
    in common get the similarity 0. *)
Theorem disjoint_documents_score_zero (toLowerCase : jsstring -> jsstring)
    (documents : list jsstring) (i j : nat) :
  let processedDocs := map (preprocessText toLowerCase) documents in
  let vectors := fst (createTfIdfVectors toLowerCase documents) in
  i < length documents ->
  j < length documents ->
  (forall word, word ∈ nth i processedDocs [] -> word ∉ nth j processedDocs []) ->
  cosineSimilarity (nth i vectors []) (nth j vectors []) = Num 0.
Proof.
  intros processedDocs vectors Hi Hj Hdisjoint.
  unfold vectors. rewrite vectors_weights. cbv zeta. cbn [fst]. fold processedDocs.
  set (vocabArray := vocabulary_of processedDocs).
  set (vec := fun words => map (fun word => Num (weight processedDocs words word)) vocabArray).
  assert (Hnth : forall k, k < length documents ->
            nth k (map vec processedDocs) [] = vec (nth k processedDocs [])).
  { intros k Hk. rewrite (nth_indep _ [] (vec [])).
    - apply map_nth.
    - unfold processedDocs. now rewrite !length_map. }
  rewrite !Hnth by assumption. unfold vec.
  rewrite <- !(map_map (weight processedDocs _) Num).
  now apply disjoint_cosine.
Qed.

(** X9 on the corpus [abc def], [xyz]. *)
Lemma disjoint_documents_score_zero_witness :
  cosineSimilarity
    (nth 0 (fst (createTfIdfVectors lower_ascii [js "abc def"; js "xyz"])) [])
    (nth 1 (fst (createTfIdfVectors lower_ascii [js "abc def"; js "xyz"])) [])
  = Num 0.
Proof.
  apply (disjoint_documents_score_zero lower_ascii [js "abc def"; js "xyz"] 0 1).
  - cbn. lia.
  - cbn. lia.
  - intros word Hin Hout. revert Hin Hout.
    replace (nth 0 (map (preprocessText lower_ascii) [js "abc def"; js "xyz"]) [])
      with [js "abc"; js "def"] by (vm_compute; reflexivity).
    replace (nth 1 (map (preprocessText lower_ascii) [js "abc def"; js "xyz"]) [])
      with [js "xyz"] by (vm_compute; reflexivity).
    intros Hin Hout. apply list_elem_of_singleton in Hout. subst word.
    apply elem_of_cons in Hin as [Hin|Hin]; [vm_compute in Hin; discriminate|].
    apply list_elem_of_singleton in Hin. vm_compute in Hin. discriminate.
Defined.

(** ** What the ranker returns, in terms of the texts *)

(** The vector of a document with the tokens [words] in the corpus
    [processedDocs]. *)
Definition doc_vector (processedDocs : list (list jsstring)) (words : list jsstring)
    : list jsnum :=
  map Num (map (weight processedDocs words) (vocabulary_of processedDocs)).

Lemma map_result_lookup {A B} (f : A -> result B) (l : list A) :
  forall (out : list B) (i : nat) (y : B),
    map_result f l = Ok out -> out !! i = Some y ->
    exists x, l !! i = Some x /\ f x = Ok y.
Proof.
  induction l as [|x l IH]; intros out i y H Hy; cbn [map_result] in H.
  - injection H as <-. inversion Hy.
  - destruct (f x) as [y0|] eqn:Hx; [|discriminate]. cbn [rbind] in H.
    destruct (map_result f l) as [ys|]; [|discriminate]. cbn [rbind] in H.
    injection H as <-. destruct i as [|i]; cbn in Hy |- *.
    + injection Hy as <-. eauto.
    + now apply (IH ys).
Qed.

Lemma sum_squares_zero (a : list R) : Forall (fun x => x = 0%R) a -> sum_squares a = 0%R.
Proof. induction 1 as [|x a -> _ IH]; cbn [sum_squares]; [reflexivity | rewrite IH; lra]. Qed.

Lemma zero_vector_cosine (a b : list R) :
  length a = length b -> Forall (fun x => x = 0%R) a ->
  cosineSimilarity (map Num a) (map Num b) = Num 0.
Proof.
  intros Hlen Hzero. rewrite cosine_finite by lia.
  rewrite (sum_squares_zero a Hzero).
  replace (is_zero (Num 0)) with true; [reflexivity|].
  symmetry. now apply is_zero_num.
Qed.

Lemma not_above_zero (item : scored) : similarity item = Num 0 -> ~ above_threshold item.
Proof.
  unfold above_threshold. intros -> H. apply Is_true_true, gt_num in H. lra.
Qed.

Lemma ranked_from_sims (sims : list scored) (topK : nat) (p : ranked_post) :
  p ∈ map to_ranked (take topK (filter above_threshold (sort by_similarity sims))) ->
  exists item, item ∈ sims /\ above_threshold item /\ p = to_ranked item.
Proof.
  intros Hp. apply list_elem_of_fmap in Hp as (item & -> & Hitem).
  apply elem_of_take in Hitem as (i & Hitem & _).
  apply list_elem_of_lookup_2, list_elem_of_filter in Hitem as [Habove Hitem].
  rewrite sort_perm in Hitem. eauto.
Qed.

Section RankedPosts.
Variable visibleText : json -> result jsstring.
Variable toLowerCase : jsstring -> jsstring.

Local Abbreviation tokens := (preprocessText toLowerCase).

(** The entry of [similarities] for the post at [index] with the text
    [text]. *)
Definition scored_text (query : jsstring) (items : list json) (postTexts : list jsstring)
    (index : nat) (text : jsstring) : scored :=
  let processedDocs := map tokens (postTexts ++ [query]) in
  mkScored index
           (cosineSimilarity (doc_vector processedDocs (tokens query))
                             (doc_vector processedDocs (tokens text)))
           (items !! index).

Lemma similarities_by_text (query : jsstring) (items : list json) (sims : list scored) :
  similarities_of visibleText toLowerCase query (JArr items) = Ok sims ->
  exists postTexts,
    map_result (post_text visibleText) items = Ok postTexts
    /\ sims = imap (scored_text query items postTexts) postTexts.
Proof.
  unfold similarities_of.
  destruct (map_result (post_text visibleText) items) as [postTexts|e]; [|discriminate].
  cbn [rbind]. cbv zeta. intros H. exists postTexts. split; [reflexivity|].
  pose proof (vectors_weights toLowerCase (postTexts ++ [query])) as Hv. cbv zeta in Hv.
  rewrite Hv in H. cbn [fst] in H. clear Hv.
  set (processedDocs := map tokens (postTexts ++ [query])) in *.
  set (vec := fun words : list jsstring =>
                map (fun word => Num (weight processedDocs words word))
                    (vocabulary_of processedDocs)) in *.
  assert (Hsplit : map vec processedDocs = map vec (map tokens postTexts) ++ [vec (tokens query)]).
  { unfold processedDocs. now rewrite !map_app. }
  rewrite Hsplit, pop_app in H.
  rewrite (map_result_imap (scored_at items (vec (tokens query))) _ (fun i => i)) in H.
  injection H as <-. rewrite !imap_fmap. apply imap_ext. intros i text _.
  unfold scored_text, scored_at, doc_vector, vec, compose. cbv zeta.
  fold processedDocs. now rewrite !map_map.
Qed.

Lemma scored_text_elem (query : jsstring) (items : list json) (postTexts : list jsstring)
    (item : scored) :
  map_result (post_text visibleText) items = Ok postTexts ->
  item ∈ imap (scored_text query items postTexts) postTexts ->
  exists text post,
    postTexts !! index item = Some text
    /\ items !! index item = Some post
    /\ post_text visibleText post = Ok text
    /\ item = scored_text query items postTexts (index item) text.
Proof.
  intros Htexts Hitem. apply elem_of_lookup_imap in Hitem as (i & text & -> & Htext).
  destruct (map_result_lookup _ _ _ _ _ Htexts Htext) as (post & Hpost & Hok).
  exists text, post. cbn. auto.
Qed.

Lemma doc_vector_length (processedDocs : list (list jsstring)) (wordsA wordsB : list jsstring) :
  length (map (weight processedDocs wordsA) (vocabulary_of processedDocs))
  = length (map (weight processedDocs wordsB) (vocabulary_of processedDocs)).
Proof. now rewrite !length_map. Qed.

(** A query whose tokens all have the inverse document frequency 0 has
    the zero vector, and every similarity is 0. *)
Lemma zero_weight_query (query : jsstring) (items : list json) (postTexts : list jsstring) :
  map_result (post_text visibleText) items = Ok postTexts ->
  (forall word, word ∈ tokens query ->
     docFreq_of (map tokens (postTexts ++ [query])) word = length items) ->
  Forall (fun item => similarity item = Num 0)
         (imap (scored_text query items postTexts) postTexts).
Proof.
  intros Htexts Hfreq. apply Forall_forall. intros item Hitem.
  destruct (scored_text_elem _ _ _ _ Htexts Hitem) as (text & post & _ & _ & _ & Heq).
  rewrite Heq. cbn. apply zero_vector_cosine; [apply doc_vector_length|].
  apply Forall_forall. intros x Hx.
  apply list_elem_of_In, in_map_iff in Hx as (word & <- & _).
  set (processedDocs := map tokens (postTexts ++ [query])).
  unfold weight. destruct (decide (word ∈ tokens query)) as [Hin|Hout].
  - rewrite idf_real_zero; [lra|].
    unfold processedDocs. rewrite (Hfreq word Hin).
    rewrite length_map, length_app. cbn [length].
    now rewrite (map_result_length _ _ _ Htexts).
  - rewrite tf_real_absent by assumption. lra.
Qed.

Lemma zero_scores_rank_nothing (sims : list scored) (topK : nat) :
  Forall (fun item => similarity item = Num 0) sims ->
  map to_ranked (take topK (filter above_threshold (sort by_similarity sims))) = [].
Proof.
  intros Hzero.
  destruct (map to_ranked _) as [|p rest] eqn:Hrank; [reflexivity|]. exfalso.
  assert (Hp : p ∈ p :: rest) by now left.
  rewrite <- Hrank in Hp.
  apply ranked_from_sims in Hp as (item & Hitem & Habove & _).
  rewrite Forall_forall in Hzero.
  now apply (not_above_zero item (Hzero item Hitem)).
Qed.

(** A query without a token ranks nothing, whatever [posts] is. *)
Lemma tokenless_query_ranks_nothing (query : jsstring) (posts : json) (topK : nat) :
  tokens query = [] ->
  rankRelevantPosts visibleText toLowerCase query posts topK = [].
Proof.
  intros Hnone.
  destruct (rank_unfold visibleText toLowerCase query posts topK)
    as [->|(sims & Hsims & ->)]; [reflexivity|].
  destruct posts as [| | | |items|]; try discriminate.
  apply similarities_by_text in Hsims as (postTexts & Htexts & ->).
  apply zero_scores_rank_nothing, (zero_weight_query _ _ _ Htexts).
  rewrite Hnone. intros word Hin. inversion Hin.
Qed.

(** X10: every post the ranker returns is one of the candidates and
    shares a token with the query: some word of at least 3 code units is
    a token of the query and of the text built from the post's title and
    content. *)
Theorem ranked_posts_share_a_token (query : jsstring) (posts : json) (topK : nat) :
  Forall (fun p =>
            exists items index post text word,
              posts = JArr items
              /\ items !! index = Some post
              /\ spread_of p = Some post
              /\ post_text visibleText post = Ok text
              /\ word ∈ tokens text
              /\ word ∈ tokens query)
         (rankRelevantPosts visibleText toLowerCase query posts topK).
Proof.
  destruct (rank_unfold visibleText toLowerCase query posts topK)
    as [->|(sims & Hsims & ->)]; [constructor|].
  apply Forall_forall. intros p Hp.
  apply ranked_from_sims in Hp as (item & Hitem & Habove & ->).
  destruct posts as [| | | |items|]; try discriminate.
  apply similarities_by_text in Hsims as (postTexts & Htexts & ->).
  destruct (scored_text_elem _ _ _ _ Htexts Hitem) as (text & post & _ & Hpost & Hok & Heq).
  destruct (shared_or_disjoint (tokens query) (tokens text)) as [(word & Hq & Ht)|Hdisjoint].
  - exists items, (index item), post, text, word. cbn [to_ranked spread_of].
    rewrite Heq at 2. cbn. repeat split; assumption.
  - exfalso. apply (not_above_zero item); [|assumption].
    rewrite Heq. cbn. now apply disjoint_cosine.
Qed.

(** X11: when every token of the query occurs in all candidates but
    one (with two candidates: in exactly one of them), its inverse
    document frequency is ln 1 = 0, the query vector is zero and the
    ranker returns nothing, although a candidate holds the tokens. *)
Theorem query_of_common_terms_ranks_nothing
    (query : jsstring) (items : list json) (postTexts : list jsstring) (topK : nat) :
  map_result (post_text visibleText) items = Ok postTexts ->
  (forall word, word ∈ tokens query ->
     docFreq_of (map tokens (postTexts ++ [query])) word = length items) ->
  rankRelevantPosts visibleText toLowerCase query (JArr items) topK = [].
Proof.
  intros Htexts Hfreq.
  destruct (rank_unfold visibleText toLowerCase query (JArr items) topK)
    as [->|(sims & Hsims & ->)]; [reflexivity|].
  apply similarities_by_text in Hsims as (postTexts' & Htexts' & ->).
  rewrite Htexts in Htexts'. injection Htexts' as <-.
  now apply zero_scores_rank_nothing, zero_weight_query.
Qed.

(** X12: the ranker lists each candidate once at most: the posts it
    returns are those at pairwise distinct positions of [posts], so there
    are never more results than candidates. *)
Theorem ranking_lists_each_post_once (query : jsstring) (items : list json) (topK : nat) :
  exists indices : list nat,
    NoDup indices
    /\ Forall (fun i => i < length items) indices
    /\ map spread_of (rankRelevantPosts visibleText toLowerCase query (JArr items) topK)
       = map (fun i => items !! i) indices
    /\ length (rankRelevantPosts visibleText toLowerCase query (JArr items) topK)
       <= length items.
Proof.
  destruct (rank_unfold visibleText toLowerCase query (JArr items) topK)
    as [->|(sims & Hsims & ->)].
  { exists []. repeat split; try constructor. cbn. lia. }
  apply similarities_by_text in Hsims as (postTexts & Htexts & ->).
  pose proof (map_result_length _ _ _ Htexts) as Hlen.
  set (sims := imap (scored_text query items postTexts) postTexts).
  set (chosen := take topK (filter above_threshold (sort by_similarity sims))).
  assert (Hindex : map index sims = seq 0 (length postTexts)).
  { unfold sims. change (map index ?l) with (index <$> l). rewrite fmap_imap.
    rewrite (imap_ext _ (fun (j : nat) (_ : jsstring) => j)) by reflexivity.
    rewrite (imap_seq_0 postTexts (fun j : nat => j)). apply map_id. }
  assert (Hsub : map index chosen `sublist_of` map index (sort by_similarity sims)).
  { apply fmap_sublist. apply ranking_sublist. }
  assert (Hperm : map index (sort by_similarity sims) ≡ₚ seq 0 (length postTexts)).
  { rewrite <- Hindex. apply fmap_Permutation. apply sort_perm. }
  exists (map index chosen). split; [|split; [|split]].
  - eapply sublist_NoDup; [|exact Hsub]. rewrite Hperm. apply NoDup_seq.
  - eapply Forall_sublist; [exact Hsub|]. rewrite Hperm.
    apply Forall_forall. intros i Hin.
    apply list_elem_of_In, in_seq in Hin. lia.
  - rewrite !map_map. apply map_ext_in. intros item Hitem. cbn [to_ranked spread_of].
    assert (Hs : item ∈ sims).
    { assert (Hall : Forall (fun x => x ∈ sims) sims) by now apply Forall_forall.
      apply (ranking_Forall _ sims topK) in Hall. rewrite Forall_forall in Hall.
      apply Hall. now apply list_elem_of_In. }
    apply elem_of_lookup_imap in Hs as (i & text & -> & _). reflexivity.
  - rewrite length_map. pose proof (sublist_length _ _ (ranking_sublist sims topK)) as Hle.
    fold chosen in Hle.
    assert (Hs : length (sort by_similarity sims) = length sims)
      by (apply Permutation_length, sort_perm).
    unfold sims in Hs at 2. rewrite length_imap in Hs. lia.
Qed.

End RankedPosts.

(** Two candidates, one of which is about [abc]. *)
Module TwoPosts.

Definition post_of (heading body : string) : json :=
  JObj [(js "title", JObj [(js "rendered", JStr (js heading))]);
        (js "content", JObj [(js "rendered", JStr (js body))])].

Definition posts : list json := [post_of "abc" "one"; post_of "def" "two"].

End TwoPosts.

(** X11 on the query [abc] and two candidates of which the first is
    about [abc]. *)
Lemma query_of_common_terms_ranks_nothing_witness :
  rankRelevantPosts Demo.visibleText lower_ascii (js "abc") (JArr TwoPosts.posts) 5 = [].
Proof.
  apply (query_of_common_terms_ranks_nothing Demo.visibleText lower_ascii (js "abc")
           TwoPosts.posts [js "abc one"; js "def two"] 5).
  - vm_compute. reflexivity.
  - intros word Hin.
    replace (preprocessText lower_ascii (js "abc")) with [js "abc"] in Hin
      by (vm_compute; reflexivity).
    apply list_elem_of_singleton in Hin. subst word. vm_compute. reflexivity.
Defined.

(** ** The composed response *)

Lemma map_result_Forall2 {A B} (f : A -> result B) (l : list A) :
  forall out, map_result f l = Ok out -> Forall2 (fun x y => f x = Ok y) l out.
Proof.
  induction l as [|x l IH]; intros out H; cbn [map_result] in H.
  - injection H as <-. constructor.
  - destruct (f x) as [y|] eqn:Hx; [|discriminate]. cbn [rbind] in H.
    destruct (map_result f l) as [ys|]; [|discriminate]. cbn [rbind] in H.
    injection H as <-. constructor; [assumption | now apply IH].
Qed.

Lemma starts_with_app (pat s : jsstring) : starts_with pat (pat ++ s) = true.
Proof.
  induction pat as [|c pat IH]; [now destruct s|].
  cbn [app starts_with]. rewrite N.eqb_refl. exact IH.
Qed.

Lemma join_head (sep p : jsstring) (rest : list jsstring) :
  exists tail, join sep ([p] ++ rest) = p ++ tail.
Proof.
  destruct rest as [|p' rest]; cbn [app join].
  - exists []. now rewrite app_nil_r.
  - eauto.
Qed.

Lemma answer_mk (text : jsstring) (srcs : list source) :
  answer (mkResponse text srcs) = text.
Proof. reflexivity. Qed.

(** The first code unit of each fixed answer and of a composed one. *)
Lemma found_head : exists rest, js "🔍 Намерих " = 55357%N :: rest.
Proof. eexists. vm_compute. reflexivity. Qed.

Definition failure_response (r : response) : Prop :=
  r = too_short \/ r = no_posts \/ r = technical_error.

Lemma no_relevant_not_failure : ~ failure_response no_relevant.
Proof. intros [H|[H|H]]; vm_compute in H; discriminate. Qed.

Lemma found_not_failure (tail : jsstring) (sources : list source) :
  ~ failure_response (mkResponse (js "🔍 Намерих " ++ tail) sources).
Proof.
  destruct found_head as (rest & ->). cbn [app].
  intros [H|[H|H]]; apply (f_equal answer) in H; cbn [answer] in H;
    vm_compute in H; discriminate.
Qed.

(** A response whose sources are few and carry a real similarity above
    the threshold and up to 1 (the bound 1 is one of exact
    arithmetic). *)
Definition well_sourced (r : response) : Prop :=
  length (sources r) <= 5
  /\ Forall (fun s => exists x : R, source_similarity s = Num x /\ (1 / 100 < x <= 1)%R)
            (sources r).

(** The part of it that does not depend on rounding: few sources, each
    with a real similarity above the threshold. *)
Definition scored_sources (r : response) : Prop :=
  length (sources r) <= 5
  /\ Forall (fun s => exists x : R, source_similarity s = Num x /\ (1 / 100 < x)%R)
            (sources r).

Lemma well_sourced_scored (r : response) : well_sourced r -> scored_sources r.
Proof.
  intros (Hlen & Hall). split; [assumption|].
  eapply Forall_impl; [exact Hall|]. intros s (x & Hx & Hlow & _). eauto.
Qed.

Lemma or_zero_above (x : R) : (1 / 100 < x)%R -> or_zero (Num x) = Num x.
Proof. intros H. unfold or_zero. destruct (Req_dec_T x 0); [lra | reflexivity]. Qed.

Section Composition.
Variable visibleText : json -> result jsstring.
Variable toLowerCase : jsstring -> jsstring.
Variable toLocaleDateString : json -> jsstring.

Local Abbreviation compose := (generateResponse visibleText toLocaleDateString).
Local Abbreviation rank := (rankRelevantPosts visibleText toLowerCase).

(** The title of a ranked post as [cleanHtml] is given it. *)
Definition title_of (p : ranked_post) : json :=
  or_empty (get_prop_opt (ranked_get p (js "title")) (js "rendered")).

Lemma compose_cases (query : jsstring) (relevantPosts : list ranked_post) (r : response) :
  compose query relevantPosts = Ok r ->
  relevantPosts = [] /\ r = no_relevant
  \/ relevantPosts <> []
     /\ map_result (source_of visibleText toLocaleDateString) relevantPosts = Ok (sources r)
     /\ exists tail,
          answer r = (js "🔍 Намерих " ++ decimal (length relevantPosts)) ++ tail.
Proof.
  unfold generateResponse. destruct relevantPosts as [|p rest].
  { intros [= <-]. now left. }
  destruct (map_result (source_of _ _) (p :: rest)) as [srcs|]; [|discriminate].
  cbn [rbind].
  destruct (map_result (answer_part _) _) as [parts|]; [|discriminate].
  cbn [rbind]. cbv zeta.
  match goal with |- context [join ?sep ?l] =>
    match l with
    | [?h] ++ ?rest =>
        destruct (join_head sep h rest) as (tail & Htail);
        change (join sep l = h ++ tail) in Htail; rewrite Htail; clear Htail
    end
  end.
  rewrite <- !app_assoc.
  match goal with |- context [decimal ?n ++ ?t] => generalize t end.
  intros tail' H. right. split; [discriminate|].
  assert (Hr : r = mkResponse (js "🔍 Намерих " ++ decimal (length (p :: rest)) ++ tail') srcs)
    by congruence.
  subst r. split; [reflexivity|]. rewrite answer_mk. eauto.
Qed.

(** The scores of a ranking: real numbers above the threshold, up to 1,
    and as many as [topK] at most. *)
Lemma rank_scores (query : jsstring) (posts : json) (topK : nat) :
  length (rank query posts topK) <= topK
  /\ Forall (fun p => exists x : R, similarity_score p = Num x /\ (1 / 100 < x <= 1)%R)
            (rank query posts topK).
Proof.
  destruct (rank_unfold visibleText toLowerCase query posts topK)
    as [->|(sims & Hsims & ->)]; [split; [cbn; lia | constructor]|].
  split; [rewrite length_map, length_take; lia|].
  destruct (similarities_scores _ _ _ _ _ Hsims) as (Hscore & _).
  rewrite Forall_forall in Hscore.
  apply Forall_forall. intros p Hp.
  apply ranked_from_sims in Hp as (item & Hitem & Habove & ->).
  destruct (Hscore item Hitem) as (x & Hx & Hrange).
  exists x. cbn [to_ranked similarity_score]. split; [assumption|].
  unfold above_threshold in Habove. rewrite Hx in Habove.
  apply Is_true_true, gt_num in Habove. lra.
Qed.

Lemma compose_ranked_well_sourced (query : jsstring) (posts : json) (r : response) :
  compose query (rank query posts 5) = Ok r -> well_sourced r.
Proof.
  intros Hr. destruct (rank_scores query posts 5) as (Hlen & Hscores).
  apply compose_cases in Hr as [[_ ->]|(_ & Hsources & _)].
  - split; [cbn; lia | constructor].
  - pose proof (map_result_length _ _ _ Hsources) as Hsame.
    apply map_result_Forall2 in Hsources.
    split; [lia|].
    clear Hlen Hsame. induction Hsources as [|p s ps ss Hp _ IH]; [constructor|].
    apply Forall_cons in Hscores as [(x & Hx & Hrange) Hscores].
    constructor; [|now apply IH].
    unfold source_of in Hp. destruct (cleanHtml _ _); [|discriminate].
    cbn [rbind] in Hp. injection Hp as <-. cbn [source_similarity].
    exists x. rewrite Hx, or_zero_above by lra. split; [reflexivity | assumption].
Qed.

Lemma compose_not_failure (query : jsstring) (relevantPosts : list ranked_post)
    (r : response) :
  compose query relevantPosts = Ok r -> ~ failure_response r.
Proof.
  intros Hr. apply compose_cases in Hr as [[_ ->]|(_ & _ & tail & Hanswer)].
  - exact no_relevant_not_failure.
  - destruct r as [text srcs]. cbn [answer] in Hanswer. subst text.
    rewrite <- app_assoc. apply found_not_failure.
Qed.

(** X13: a response [generateResponse] returns lists one source for each
    ranked post, in the same order, with the post's score (0 for a score
    that is falsy), its link ([''] for a falsy one) and its cleaned title;
    without ranked posts it is the fixed apology, otherwise the answer
    starts with the number of posts found; the question itself plays no
    part in it; and it throws only when there is a post to describe. *)
Theorem generateResponse_sources (query : jsstring) (relevantPosts : list ranked_post) :
  (forall other : jsstring, compose other relevantPosts = compose query relevantPosts)
  /\ match compose query relevantPosts with
     | Ok r =>
         Forall2 (fun p s =>
                    source_similarity s = or_zero (similarity_score p)
                    /\ link s = or_empty (ranked_get p (js "link"))
                    /\ cleanHtml visibleText (title_of p) = Ok (title s))
                 relevantPosts (sources r)
         /\ (relevantPosts = [] -> r = no_relevant)
         /\ (relevantPosts <> [] ->
             starts_with (js "🔍 Намерих " ++ decimal (length relevantPosts)) (answer r)
             = true)
     | Throw _ => relevantPosts <> []
     end.
Proof.
  split; [reflexivity|].
  destruct (compose query relevantPosts) as [r|e] eqn:Hr.
  - apply compose_cases in Hr as [[-> ->]|(Hne & Hsources & tail & Hanswer)].
    + split; [constructor|]. split; [reflexivity | congruence].
    + split; [|split; [congruence|]].
      * apply map_result_Forall2 in Hsources.
        eapply Forall2_impl; [exact Hsources|].
        intros p s Hp. unfold source_of in Hp. fold (title_of p) in Hp.
        destruct (cleanHtml visibleText (title_of p)) as [t|]; [|discriminate].
        cbn [rbind] in Hp. injection Hp as <-. cbn. auto.
      * intros _. rewrite Hanswer. apply starts_with_app.
  - intros ->. discriminate.
Qed.

End Composition.

(** ** What one call of [processQuery] does to the instance *)

Lemma app_same_nil {A} (l rest : list A) : l ++ rest = l -> rest = [].
Proof.
  intros H. apply (f_equal length) in H. rewrite length_app in H.
  destruct rest; [reflexivity | cbn in H; lia].
Qed.

Lemma no_candidates_empty : no_candidates (JArr []) = true.
Proof.
  unfold no_candidates, is_zero_val, get_length. cbn [truthy negb orb length INR].
  destruct (Req_dec_T 0 0) as [_|H]; [reflexivity | now contradiction H].
Qed.

Section Sessions.
Variable fetch : request -> list request -> Z -> fetch_outcome * Z.
Variable visibleText : json -> result jsstring.
Variable toLowerCase : jsstring -> jsstring.
Variable JSON_parse : json -> result json.
Variable toLocaleDateString : json -> jsstring.
Variable engine_message : exn -> jsstring.

Local Abbreviation search := (searchPosts fetch JSON_parse engine_message).
Local Abbreviation proxy := (searchWithCorsProxy fetch JSON_parse).
Local Abbreviation rank := (rankRelevantPosts visibleText toLowerCase).
Local Abbreviation compose := (generateResponse visibleText toLocaleDateString).
Local Abbreviation answer_fresh :=
  (answer_query fetch visibleText toLowerCase JSON_parse toLocaleDateString engine_message).
Local Abbreviation process :=
  (processQuery fetch visibleText toLowerCase JSON_parse toLocaleDateString engine_message).

Lemma proxy_cache (query : jsstring) (w : world) :
  queryCache (snd (proxy query w)) = queryCache w.
Proof.
  unfold searchWithCorsProxy, try_catch, bind, encodeTarget, lift.
  destruct (lone_surrogate query); [reflexivity|].
  rewrite do_fetch_eq.
  destruct (outcome_of fetch (GetViaProxy query) w) as [message|status body]; cbn;
    [reflexivity|].
  destruct body as [data|e]; cbn; [|reflexivity].
  destruct (get_prop (Some data) (js "contents")) as [[c|]|e]; cbn; try reflexivity.
  destruct (truthy c); cbn; [|reflexivity].
  unfold lift. destruct (JSON_parse c); reflexivity.
Qed.

(** [searchPosts] leaves the cache alone and issues the direct request,
    then the relay request at most. *)
Lemma searchPosts_frame (query : jsstring) (w : world) :
  queryCache (snd (search query w)) = queryCache w
  /\ (requests (snd (search query w)) = requests w ++ [GetPosts query]
      \/ requests (snd (search query w)) = requests w ++ [GetPosts query; GetViaProxy query]).
Proof.
  rewrite searchPosts_cases.
  destruct (primary_result _) as [v|e]; [split; [reflexivity | now left]|].
  destruct (network_class _); [|split; [reflexivity | now left]].
  split; [rewrite proxy_cache; reflexivity|].
  destruct (proxy_requests fetch JSON_parse query (after_fetch fetch (GetPosts query) w))
    as [->| ->]; cbn [after_fetch requests].
  - now left.
  - right. now rewrite <- app_assoc.
Qed.

(** What a fresh computation returns and does: the response, the world
    after it, and whether it stored the response. *)
Lemma answer_query_frame (question : jsstring) (w : world) :
  exists (r : response) (w' : world),
    answer_fresh question w = (Ok r, w')
    /\ (w' = w /\ r = too_short
        \/ exists w1,
             queryCache w1 = queryCache w
             /\ (requests w1 = requests w ++ [GetPosts question]
                 \/ requests w1 = requests w ++ [GetPosts question; GetViaProxy question])
             /\ (w' = w1 /\ (r = no_posts \/ r = technical_error)
                 \/ w' = stored question r w1
                    /\ exists posts, compose question (rank question posts 5) = Ok r)).
Proof.
  rewrite answer_query_cases.
  destruct (too_short_question question); [exists too_short, w; auto|].
  destruct (searchPosts_frame question w) as (Hcache & Hreq).
  destruct (search question w) as [[posts|e] w1]; cbn [snd] in *.
  - destruct (no_candidates posts).
    + exists no_posts, w1. split; [reflexivity|]. right. exists w1.
      split; [assumption|]. split; [assumption|]. left. split; [reflexivity | now left].
    + destruct (compose question (rank question posts 5)) as [r|e] eqn:Hr.
      * exists r, (stored question r w1). split; [reflexivity|]. right. exists w1.
        split; [assumption|]. split; [assumption|]. right. eauto.
      * exists technical_error, w1. split; [reflexivity|]. right. exists w1.
        split; [assumption|]. split; [assumption|]. left. split; [reflexivity | now right].
  - exists technical_error, w1. split; [reflexivity|]. right. exists w1.
    split; [assumption|]. split; [assumption|]. left. split; [reflexivity | now right].
Qed.

Lemma processQuery_frame_cases (question : jsstring) (w : world) :
  (exists entry, queryCache w !! question = Some entry
                 /\ process question w = (Ok (cached_response entry), w))
  \/ process question w = answer_fresh question w.
Proof.
  rewrite processQuery_cases.
  destruct (queryCache w !! question) as [entry|]; [|now right].
  destruct (clock w - timestamp entry <? cacheExpiry)%Z; [left; eauto | now right].
Qed.

(** X14: one call of [processQuery] issues no request, the direct
    request, or the direct request and then the relay request, all for
    the question as given; a call without a request leaves the instance
    as it was; the cache is left as it was or gets, under the question as
    given, the response returned, stamped with the clock at that moment;
    entries under other keys are never touched. *)
Theorem processQuery_frame (question : jsstring) (w : world) :
  exists (r : response) (w' : world),
    process question w = (Ok r, w')
    /\ (requests w' = requests w
        \/ requests w' = requests w ++ [GetPosts question]
        \/ requests w' = requests w ++ [GetPosts question; GetViaProxy question])
    /\ (requests w' = requests w -> w' = w)
    /\ (queryCache w' = queryCache w
        \/ queryCache w' = <[question := mkEntry r (clock w')]> (queryCache w))
    /\ (forall key, key <> question -> queryCache w' !! key = queryCache w !! key).
Proof.
  destruct (processQuery_frame_cases question w) as [(entry & _ & ->)| ->].
  { exists (cached_response entry), w. repeat split; auto. }
  destruct (answer_query_frame question w)
    as (r & w' & -> & [[-> _]|(w1 & Hcache & Hreq & Hend)]).
  { exists r, w. repeat split; auto. }
  exists r, w'. split; [reflexivity|].
  assert (Hgrow : forall rest, requests w1 = requests w ++ GetPosts question :: rest ->
                               requests w1 = requests w -> False).
  { intros rest H1 H2. rewrite H2 in H1. symmetry in H1.
    apply app_same_nil in H1. discriminate. }
  assert (Hreq' : requests w' = requests w1).
  { destruct Hend as [[-> _]|[-> _]]; reflexivity. }
  rewrite Hreq'. split; [tauto|]. split.
  { intros Hsame. exfalso. destruct Hreq as [H|H]; eapply Hgrow; eassumption. }
  destruct Hend as [[-> _]|[-> _]]; cbn [stored queryCache clock]; rewrite Hcache.
  - split; [now left | reflexivity].
  - split; [now right|]. intros key Hkey. now rewrite lookup_insert_ne.
Qed.

(** X15: [processQuery] never stores one of its three fixed failure
    responses (question too short, no candidates, technical error): an
    entry found in the cache after a call was there before it, or it is
    the response just returned, composed by [generateResponse] (the
    apology for an empty ranking included). *)
Theorem failures_are_never_cached (question : jsstring) (w : world) :
  exists (r : response) (w' : world),
    process question w = (Ok r, w')
    /\ forall (key : jsstring) (entry : cache_entry),
         queryCache w' !! key = Some entry ->
         queryCache w !! key = Some entry
         \/ key = question
            /\ entry = mkEntry r (clock w')
            /\ ~ failure_response r
            /\ exists posts, compose question (rank question posts 5) = Ok r.
Proof.
  destruct (processQuery_frame_cases question w) as [(entry & _ & ->)| ->].
  { exists (cached_response entry), w. split; [reflexivity | auto]. }
  destruct (answer_query_frame question w)
    as (r & w' & -> & [[-> _]|(w1 & Hcache & _ & [[-> _]|[-> (posts & Hr)]])]).
  - exists r, w. split; [reflexivity | auto].
  - exists r, w1. split; [reflexivity|]. intros key entry. rewrite Hcache. auto.
  - exists r, (stored question r w1). split; [reflexivity|].
    intros key entry. cbn [stored queryCache clock]. rewrite Hcache.
    destruct (decide (key = question)) as [->|Hkey].
    + rewrite lookup_insert_eq. intros [= <-]. right.
      split; [reflexivity|]. split; [reflexivity|].
      split; [eapply compose_not_failure; eassumption | eauto].
    + rewrite lookup_insert_ne by congruence. auto.
Qed.

(** X16: when every response in the cache has at most 5 sources, each
    with a real similarity above 0.01, the response of a call has them
    too, and so has every response in the cache after it. *)
Theorem responses_have_scored_sources (question : jsstring) (w : world) :
  (forall key entry,
     queryCache w !! key = Some entry -> scored_sources (cached_response entry)) ->
  exists (r : response) (w' : world),
    process question w = (Ok r, w')
    /\ scored_sources r
    /\ forall key entry,
         queryCache w' !! key = Some entry -> scored_sources (cached_response entry).
Proof.
  intros Hinv.
  assert (Hfixed : forall r, failure_response r -> scored_sources r).
  { intros r [ -> | [ -> | -> ] ]; (split; [cbn; lia | constructor]). }
  destruct (processQuery_frame_cases question w) as [(entry & Hentry & ->)| ->].
  { exists (cached_response entry), w. split; [reflexivity|]. split; [|assumption].
    eapply Hinv; eassumption. }
  destruct (answer_query_frame question w)
    as (r & w' & -> & [[-> ->]|(w1 & Hcache & _ & [[-> Hr]|[-> (posts & Hr)]])]).
  - exists too_short, w. split; [reflexivity|]. split; [|assumption].
    apply Hfixed. now left.
  - exists r, w1. split; [reflexivity|]. split.
    + apply Hfixed. right. exact Hr.
    + intros key entry. rewrite Hcache. apply Hinv.
  - pose proof (well_sourced_scored _ (compose_ranked_well_sourced _ _ _ _ _ _ Hr)) as Hwell.
    exists r, (stored question r w1). split; [reflexivity|]. split; [assumption|].
    intros key entry. cbn [stored queryCache]. rewrite Hcache.
    destruct (decide (key = question)) as [->|Hkey].
    + rewrite lookup_insert_eq. now intros [= <-].
    + rewrite lookup_insert_ne by congruence. apply Hinv.
Qed.

(** X17: a question without a token (no run of at least 3 letters,
    digits or underscores) that is not answered from the cache never
    gets a source: the answer is one of the four fixed texts. *)
Theorem tokenless_question_gets_no_source (question : jsstring) (w : world) :
  preprocessText toLowerCase question = [] ->
  fresh (clock w) (queryCache w !! question) = false ->
  exists (r : response) (w' : world),
    process question w = (Ok r, w')
    /\ sources r = []
    /\ (failure_response r \/ r = no_relevant).
Proof.
  intros Hnone Hmiss. rewrite processQuery_miss by assumption.
  rewrite answer_query_cases.
  destruct (too_short_question question).
  { exists too_short, w. split; [reflexivity|]. split; [reflexivity|]. left. now left. }
  destruct (search question w) as [[posts|e] w1].
  - destruct (no_candidates posts).
    + exists no_posts, w1. split; [reflexivity|]. split; [reflexivity|].
      left. right. now left.
    + rewrite (tokenless_query_ranks_nothing visibleText toLowerCase) by assumption.
      cbn [generateResponse]. exists no_relevant, (stored question no_relevant w1).
      split; [reflexivity|]. split; [reflexivity|]. now right.
  - exists technical_error, w1. split; [reflexivity|]. split; [reflexivity|].
    left. right. now right.
Qed.

(** X18: a question with a lone surrogate cannot be put into the relay
    address: [searchWithCorsProxy] returns the empty array at once,
    without a request. *)
Theorem lone_surrogate_skips_relay (query : jsstring) (w : world) :
  lone_surrogate query = true ->
  proxy query w = (Ok (JArr []), w).
Proof.
  intros Hlone. unfold searchWithCorsProxy, try_catch, bind, encodeTarget, lift.
  now rewrite Hlone.
Qed.

(** X19: when the direct request is rejected with a network-class
    message and the relay request is rejected too, [processQuery] answers
    that no post was found, having issued both requests, and stores
    nothing: the same question asked again goes to the network again. *)
Theorem outage_is_reported_as_no_posts
    (question : jsstring) (w : world) (message message' : jsstring) :
  fresh (clock w) (queryCache w !! question) = false ->
  too_short_question question = false ->
  lone_surrogate question = false ->
  outcome_of fetch (GetPosts question) w = NetFailure message ->
  network_class message = true ->
  outcome_of fetch (GetViaProxy question) (after_fetch fetch (GetPosts question) w)
  = NetFailure message' ->
  exists w' : world,
    process question w = (Ok no_posts, w')
    /\ queryCache w' = queryCache w
    /\ requests w' = requests w ++ [GetPosts question; GetViaProxy question].
Proof.
  intros Hmiss Hlong Hlone Hdirect Hclass Hrelay.
  rewrite processQuery_miss by assumption.
  rewrite answer_query_cases, Hlong, searchPosts_cases, Hdirect.
  cbn [primary_result message_of]. rewrite Hclass.
  unfold searchWithCorsProxy, try_catch, bind, encodeTarget, lift.
  rewrite Hlone, do_fetch_eq, Hrelay. cbn [settle]. unfold ret.
  rewrite no_candidates_empty.
  eexists. split; [reflexivity|]. cbn [after_fetch queryCache requests clock].
  split; [reflexivity|]. now rewrite <- app_assoc.
Qed.

End Sessions.

(** A network that is down: every request is rejected at once. *)
Definition fetch_down (rq : request) (earlier : list request) (now : Z)
    : fetch_outcome * Z :=
  (NetFailure (js "Failed to fetch"), now).

(** X16 on a new instance. *)
Lemma responses_have_scored_sources_witness :
  exists (r : response) (w' : world),
    processQuery Demo.fetch Demo.visibleText lower_ascii Demo.JSON_parse
                 Demo.toLocaleDateString Demo.engine_message (js "abc") Demo.start
    = (Ok r, w')
    /\ scored_sources r
    /\ forall key entry,
         queryCache w' !! key = Some entry -> scored_sources (cached_response entry).
Proof.
  apply (responses_have_scored_sources Demo.fetch Demo.visibleText lower_ascii
           Demo.JSON_parse Demo.toLocaleDateString Demo.engine_message (js "abc") Demo.start).
  intros key entry H. cbn in H. rewrite lookup_empty in H. discriminate.
Defined.

(** X17 on the question [to be?], asked of a new instance. *)
Lemma tokenless_question_gets_no_source_witness :
  exists (r : response) (w' : world),
    processQuery Demo.fetch Demo.visibleText lower_ascii Demo.JSON_parse
                 Demo.toLocaleDateString Demo.engine_message (js "to be?") Demo.start
    = (Ok r, w')
    /\ sources r = []
    /\ (failure_response r \/ r = no_relevant).
Proof.
  apply (tokenless_question_gets_no_source Demo.fetch Demo.visibleText lower_ascii
           Demo.JSON_parse Demo.toLocaleDateString Demo.engine_message
           (js "to be?") Demo.start).
  - vm_compute. reflexivity.
  - reflexivity.
Defined.

(** X18 on a question that is a lone high surrogate. *)
Lemma lone_surrogate_skips_relay_witness :
  searchWithCorsProxy Demo.fetch Demo.JSON_parse [55357%N] Demo.start
  = (Ok (JArr []), Demo.start).
Proof.
  apply (lone_surrogate_skips_relay Demo.fetch Demo.JSON_parse [55357%N] Demo.start).
  reflexivity.
Defined.

(** X19 on the question [abc], asked of a new instance while the
    network is down. *)
Lemma outage_is_reported_as_no_posts_witness :
  exists w' : world,
    processQuery fetch_down Demo.visibleText lower_ascii Demo.JSON_parse
                 Demo.toLocaleDateString Demo.engine_message (js "abc") Demo.start
    = (Ok no_posts, w')
    /\ queryCache w' = queryCache Demo.start
    /\ requests w' = requests Demo.start ++ [GetPosts (js "abc"); GetViaProxy (js "abc")].
Proof.
  apply (outage_is_reported_as_no_posts fetch_down Demo.visibleText lower_ascii
           Demo.JSON_parse Demo.toLocaleDateString Demo.engine_message
           (js "abc") Demo.start (js "Failed to fetch") (js "Failed to fetch")).
  - reflexivity.
  - exact Demo.abc_long_enough.
  - vm_compute. reflexivity.
  - reflexivity.
  - vm_compute. reflexivity.
  - reflexivity.
Defined.

(** * The chat page *)

(** ** [ChatUI.formatContent] *)

(** What [.] does not match. *)
Definition is_line_terminator (c : N) : bool :=
  ((c =? 10) || (c =? 13) || (c =? 8232) || (c =? 8233))%N.

(** [(.*?)\*\*], tried on what follows an opening [**]: the shortest run
    of code units other than line terminators that [**] follows, and the
    text after that [**]. *)
Fixpoint close_bold (s : jsstring) : option (jsstring * jsstring) :=
  match s with
  | [] => None
  | c :: s' =>
      if starts_with [42%N; 42%N] s then Some ([], drop 2 s)
      else if is_line_terminator c then None
      else match close_bold s' with
           | Some (inner, rest) => Some (c :: inner, rest)
           | None => None
           end
  end.

(** [content.replace(/\*\*(.*?)\*\*/g, '<strong>$1</strong>')]: the matches
    are taken from the left and do not overlap.  [skip] counts the code
    units of a match that remain to be dropped. *)
Fixpoint bold_go (skip : nat) (s : jsstring) : jsstring :=
  match s with
  | [] => []
  | c :: s' =>
      match skip with
      | S k => bold_go k s'
      | O =>
          if starts_with [42%N; 42%N] s
          then match close_bold (drop 2 s) with
               | Some (inner, _) =>
                   js "<strong>" ++ inner ++ js "</strong>"
                   ++ bold_go (length inner + 3) s'
               | None => c :: bold_go O s'
               end
          else c :: bold_go O s'
      end
  end.

Definition formatContent (content : jsstring) : jsstring :=
  replaceAll [10%N] (js "<br>") (bold_go O content).

(** ** The number shown as the relevance of a source *)

(** [Math.round] *)
Definition Math_round (a : jsnum) : jsnum :=
  match a with
  | Num x => Num (IZR (Int_part (x + 1 / 2)))
  | _ => a
  end.

(** [Math.round(source.similarity * 100)] in [createSourcesElement]. *)
Definition relevance_shown (s : source) : jsnum :=
  Math_round (JsNum.mul (source_similarity s) (Num 100)).

(** ** [ChatUI.handleSendMessage] and [PostVaiChatApp.processQuery] *)

Inductive sender : Type := User | Bot.

Inductive toast_type : Type := Warning | Failure.

Inductive status : Type := Ready | Processing | Failed.

(** The calls of [handleSendMessage] that change the page, with their
    arguments; [UpdateCharCounter] carries the length it reads from the
    input, the two message calls that take an [id] carry it. *)
Inductive ui_call : Type :=
| ShowToast (message : jsstring) (type : toast_type)
| AddMessage (content : jsstring) (from : sender) (sources : option (list source))
| UpdateCharCounter (len : nat)
| AutoResizeInput
| SetLoading (isLoading : bool)
| SetStatus (st : status) (message : jsstring)
| AddLoadingMessage (id : Z)
| RemoveMessage (id : Z)
| FocusInput.

(** The page: the instance of [RAGChatSystem] with its clock, the text
    in the input, and the calls made so far. *)
Record page : Type := mkPage {
  ragSystem : world;
  chatInput_value : jsstring;
  calls : list ui_call
}.

Section Page.
Variable fetch : request -> list request -> Z -> fetch_outcome * Z.
Variable visibleText : json -> result jsstring.
Variable toLowerCase : jsstring -> jsstring.
Variable JSON_parse : json -> result json.
Variable toLocaleDateString : json -> jsstring.
Variable engine_message : exn -> jsstring.

(** [PostVaiChatApp.processQuery] *)
Definition app_processQuery (question : jsstring) : M response :=
  await startTime := Date_now in
  await response :=
    processQuery fetch visibleText toLowerCase JSON_parse toLocaleDateString
                 engine_message question in
  await finished := Date_now in
  ret response.

(** One run of [handleSendMessage]; [chatApp] is [window.chatApp] when it
    is set and has a function [processQuery], and the elements of the
    page are in place, so that no call on them throws. *)
Definition handleSendMessage (chatApp : option (jsstring -> M response)) (p : page)
    : page :=
  let question := trim (chatInput_value p) in
  if length question <? 3
  then mkPage (ragSystem p) (chatInput_value p)
              (calls p ++ [ShowToast (js "Въпросът трябва да е поне 3 символа") Warning])
  else
    let loadingId := clock (ragSystem p) in
    let opening :=
      [AddMessage question User None; UpdateCharCounter (length (@nil N));
       AutoResizeInput; SetLoading true;
       SetStatus Processing (js "Търся информация..."); AddLoadingMessage loadingId] in
    let '(outcome, w') :=
      match chatApp with
      | Some processQuery => processQuery question (ragSystem p)
      | None => (Throw (Error (js "Чат системата не е инициализирана.")), ragSystem p)
      end in
    let closing :=
      match outcome with
      | Ok response =>
          [RemoveMessage loadingId;
           AddMessage (answer response) Bot (Some (sources response));
           SetStatus Ready (js "Системата е готова")]
      | Throw error =>
          [RemoveMessage loadingId;
           AddMessage (js "Възникна грешка при обработката на заявката.") Bot None;
           SetStatus Failed (message_of engine_message error);
           ShowToast (js "Възникна грешка") Failure]
      end in
    mkPage w' [] (calls p ++ opening ++ closing ++ [SetLoading false; FocusInput]).

End Page.

Arguments formatContent : simpl never.

(** ** Properties of the page *)

Module FormatFacts.

Definition line_feed_out (rep : jsstring) (c : N) : jsstring :=
  if (10 =? c)%N then rep else [c].

Lemma replace_unit (rep s : jsstring) :
  replaceAll [10%N] rep s = concat (map (line_feed_out rep) s).
Proof.
  unfold replaceAll. induction s as [|c s IH]; [reflexivity|].
  cbn [replace_go starts_with map concat length Nat.pred]. unfold line_feed_out at 1.
  rewrite andb_true_r. destruct (10 =? c)%N; rewrite IH; reflexivity.
Qed.

Lemma replace_unit_app (rep s t : jsstring) :
  replaceAll [10%N] rep (s ++ t) = replaceAll [10%N] rep s ++ replaceAll [10%N] rep t.
Proof. now rewrite !replace_unit, map_app, concat_app. Qed.

Lemma replace_unit_absent (rep s : jsstring) :
  ~ In 10%N s -> replaceAll [10%N] rep s = s.
Proof.
  intros H. change [10%N] with ([10%N] ++ []).
  exact (replaceAll_absent_head ([10%N] ++ []) rep s 10%N [] eq_refl H).
Qed.

Lemma replace_unit_clean (rep s : jsstring) :
  ~ In 10%N rep -> ~ In 10%N (replaceAll [10%N] rep s).
Proof.
  intros Hrep. rewrite replace_unit. induction s as [|c s IH]; [intros []|].
  cbn [map concat]. rewrite in_app_iff. intros [H|H]; [|now apply IH].
  unfold line_feed_out in H. destruct (10 =? c)%N eqn:E; [now apply Hrep|].
  apply N.eqb_neq in E. destruct H as [H|[]]. congruence.
Qed.

Lemma no_star_start (c : N) (s : jsstring) :
  c <> 42%N -> starts_with [42%N; 42%N] (c :: s) = false.
Proof.
  intros H. cbn [starts_with]. apply andb_false_iff. left. apply N.eqb_neq. congruence.
Qed.

Lemma bold_go_plain (pre s : jsstring) :
  ~ In 42%N pre -> bold_go O (pre ++ s) = pre ++ bold_go O s.
Proof.
  induction pre as [|c pre IH]; intros H; [reflexivity|].
  cbn [app bold_go]. rewrite no_star_start by (intros ->; apply H; now left).
  f_equal. apply IH. intros Hin. apply H. now right.
Qed.

Lemma bold_go_skip (a s : jsstring) : bold_go (length a) (a ++ s) = bold_go O s.
Proof.
  induction a as [|c a IH]; [reflexivity|].
  cbn [length app bold_go]. exact IH.
Qed.

Lemma close_bold_found (inner post : jsstring) :
  ~ In 42%N inner ->
  Forall (fun c => is_line_terminator c = false) inner ->
  close_bold (inner ++ [42%N; 42%N] ++ post) = Some (inner, post).
Proof.
  induction inner as [|c inner IH]; intros Hstar Hline; [reflexivity|].
  apply Forall_cons in Hline as [Hc Hline].
  cbn [app close_bold]. rewrite no_star_start by (intros ->; apply Hstar; now left).
  rewrite Hc. cbn [app] in IH. rewrite IH; [reflexivity | | assumption].
  intros Hin. apply Hstar. now right.
Qed.

Lemma bold_go_open (s : jsstring) :
  bold_go O (42%N :: 42%N :: s)
  = match close_bold s with
    | Some (inner, _) =>
        js "<strong>" ++ inner ++ js "</strong>" ++ bold_go (length inner + 3) (42%N :: s)
    | None => 42%N :: bold_go O (42%N :: s)
    end.
Proof. reflexivity. Qed.

Lemma no_line_feed (s : jsstring) :
  Forall (fun c => is_line_terminator c = false) s -> ~ In 10%N s.
Proof.
  intros H Hin. rewrite Forall_forall in H.
  apply list_elem_of_In, H in Hin. discriminate.
Qed.

Lemma markup_clean : ~ In 10%N (js "<strong>") /\ ~ In 10%N (js "</strong>")
                     /\ ~ In 10%N (js "<br>").
Proof. vm_compute. intuition discriminate. Qed.

End FormatFacts.

Import FormatFacts.

(** X20: what [formatContent] returns holds no line feed, and content
    without an asterisk and without a line feed is returned as it is,
    markup characters and all: nothing is escaped. *)
Theorem formatContent_line_feeds (content : jsstring) :
  ~ In 10%N (formatContent content)
  /\ (~ In 42%N content -> ~ In 10%N content -> formatContent content = content).
Proof.
  unfold formatContent. split.
  - apply replace_unit_clean. apply markup_clean.
  - intros Hstar Hfeed.
    pose proof (bold_go_plain content [] Hstar) as H. rewrite app_nil_r in H.
    cbn [bold_go] in H. rewrite app_nil_r in H. rewrite H.
    now apply replace_unit_absent.
Qed.

(** X21: the first pair of double asterisks is rendered as a [strong]
    element: text without an asterisk, then [**], then a run without
    an asterisk and without a line terminator, then [**], comes out as
    the text with its line feeds turned into [<br>], the run inside
    [<strong>] and [</strong>], and the rest formatted in the same
    way. *)
Theorem formatContent_bold (pre inner post : jsstring) :
  ~ In 42%N pre ->
  ~ In 42%N inner ->
  Forall (fun c => is_line_terminator c = false) inner ->
  formatContent (pre ++ [42%N; 42%N] ++ inner ++ [42%N; 42%N] ++ post)
  = replaceAll [10%N] (js "<br>") pre
    ++ js "<strong>" ++ inner ++ js "</strong>" ++ formatContent post.
Proof.
  intros Hpre Hinner Hline. unfold formatContent.
  rewrite bold_go_plain by assumption.
  assert (Hbold : bold_go O ([42%N; 42%N] ++ inner ++ [42%N; 42%N] ++ post)
                  = js "<strong>" ++ inner ++ js "</strong>" ++ bold_go O post).
  { change ([42%N; 42%N] ++ inner ++ [42%N; 42%N] ++ post)
      with (42%N :: 42%N :: (inner ++ [42%N; 42%N] ++ post)).
    rewrite bold_go_open, (close_bold_found inner post Hinner Hline).
    do 3 f_equal.
    pose proof (bold_go_skip (42%N :: inner ++ [42%N; 42%N]) post) as Hskip.
    cbn [length] in Hskip. rewrite length_app in Hskip. cbn [length] in Hskip.
    replace (length inner + 3) with (S (length inner + 2)) by lia.
    rewrite <- Hskip. cbn [app]. now rewrite <- app_assoc. }
  rewrite Hbold, !replace_unit_app.
  destruct markup_clean as (Hopen & Hclose & _).
  rewrite (replace_unit_absent _ (js "<strong>")) by assumption.
  rewrite (replace_unit_absent _ (js "</strong>")) by assumption.
  rewrite (replace_unit_absent _ inner) by now apply no_line_feed.
  reflexivity.
Qed.

(** X21 on the content [a**b**c]. *)
Lemma formatContent_bold_witness :
  formatContent ([97%N] ++ [42%N; 42%N] ++ [98%N] ++ [42%N; 42%N] ++ [99%N])
  = replaceAll [10%N] (js "<br>") [97%N]
    ++ js "<strong>" ++ [98%N] ++ js "</strong>" ++ formatContent [99%N].
Proof.
  apply (formatContent_bold [97%N] [98%N] [99%N]).
  - intros [H|[]]. discriminate.
  - intros [H|[]]. discriminate.
  - repeat constructor.
Defined.

(** X22: the relevance shown for a source of a response with real
    similarities above 0.01 and up to 1 is a whole number of per cent
    from 1 to 100. *)
Theorem relevance_is_a_percentage (r : response) :
  well_sourced r ->
  Forall (fun s => exists n : Z, relevance_shown s = Num (IZR n) /\ (1 <= n <= 100)%Z)
         (sources r).
Proof.
  intros (_ & Hsources). eapply Forall_impl; [exact Hsources|].
  intros s (x & Hx & Hrange). unfold relevance_shown. rewrite Hx. cbn [JsNum.mul Math_round].
  exists (Int_part (x * 100 + 1 / 2)). split; [reflexivity|].
  destruct (base_Int_part (x * 100 + 1 / 2)) as (Hlow & Hhigh).
  split.
  - assert (H : (0 < IZR (Int_part (x * 100 + 1 / 2)))%R) by lra.
    apply lt_IZR in H. lia.
  - assert (H : (IZR (Int_part (x * 100 + 1 / 2)) < 101)%R) by lra.
    apply lt_IZR in H. lia.
Qed.

(** X22 on a response with one source of similarity 1/2. *)
Lemma relevance_is_a_percentage_witness :
  Forall (fun s => exists n : Z, relevance_shown s = Num (IZR n) /\ (1 <= n <= 100)%Z)
         (sources (mkResponse [] [mkSource [] (JStr []) (Num (1 / 2)) []])).
Proof.
  apply relevance_is_a_percentage. split; [cbn; lia|].
  constructor; [|constructor]. exists (1 / 2)%R. split; [reflexivity | lra].
Defined.

Section PageRuns.
Variable fetch : request -> list request -> Z -> fetch_outcome * Z.
Variable visibleText : json -> result jsstring.
Variable toLowerCase : jsstring -> jsstring.
Variable JSON_parse : json -> result json.
Variable toLocaleDateString : json -> jsstring.
Variable engine_message : exn -> jsstring.

Local Abbreviation process :=
  (processQuery fetch visibleText toLowerCase JSON_parse toLocaleDateString engine_message).
Local Abbreviation chatApp_processQuery :=
  (app_processQuery fetch visibleText toLowerCase JSON_parse toLocaleDateString
                    engine_message).

(** The wrapper of [PostVaiChatApp] returns what the instance returns
    and leaves it in the same state. *)
Lemma app_processQuery_eq (question : jsstring) (w : world) :
  chatApp_processQuery question w = process question w.
Proof.
  unfold app_processQuery, bind, Date_now, ret. cbv beta iota.
  destruct (process question w) as [[r|e] w']; reflexivity.
Qed.

Lemma process_total (question : jsstring) (w : world) :
  exists r w', process question w = (Ok r, w').
Proof.
  destruct (processQuery_frame_cases fetch visibleText toLowerCase JSON_parse
              toLocaleDateString engine_message question w) as [(entry & _ & ->)| ->];
    [eauto|].
  destruct (answer_query_frame fetch visibleText toLowerCase JSON_parse
              toLocaleDateString engine_message question w) as (r & w' & -> & _).
  eauto.
Qed.

Lemma trimmed_long (text : jsstring) :
  3 <= length (trim text) -> too_short_question (trim text) = false.
Proof.
  intros H. unfold too_short_question. rewrite trim_idempotent.
  apply orb_false_iff. split.
  - apply bool_decide_eq_false. intros E. rewrite E in H. cbn in H. lia.
  - apply Nat.ltb_ge. exact H.
Qed.

(** X23: one run of [handleSendMessage] on a page whose [chatApp] is
    the [PostVaiChatApp].  An input of fewer than 3 code units once
    trimmed only raises the warning toast: no message, no request, the
    input kept.  Any other input is sent trimmed, and the run never takes
    the error branch: it shows the question, empties the input, shows
    and removes the loading message, shows the answer of [processQuery]
    with its sources, and ends by enabling the form again.  The question
    sent passes the length check of [processQuery], so a response that is
    not taken from the cache is never the guidance for short
    questions. *)
Theorem handleSendMessage_run (p : page) :
  let question := trim (chatInput_value p) in
  let loadingId := clock (ragSystem p) in
  (length question < 3 ->
   handleSendMessage engine_message (Some chatApp_processQuery) p
   = mkPage (ragSystem p) (chatInput_value p)
            (calls p ++ [ShowToast (js "Въпросът трябва да е поне 3 символа") Warning]))
  /\ (3 <= length question ->
      too_short_question question = false
      /\ exists (r : response) (w' : world),
           process question (ragSystem p) = (Ok r, w')
           /\ handleSendMessage engine_message (Some chatApp_processQuery) p
              = mkPage w' []
                  (calls p
                   ++ [AddMessage question User None; UpdateCharCounter 0;
                       AutoResizeInput; SetLoading true;
                       SetStatus Processing (js "Търся информация...");
                       AddLoadingMessage loadingId;
                       RemoveMessage loadingId;
                       AddMessage (answer r) Bot (Some (sources r));
                       SetStatus Ready (js "Системата е готова");
                       SetLoading false; FocusInput])
           /\ (fresh (clock (ragSystem p)) (queryCache (ragSystem p) !! question) = false ->
               r <> too_short)).
Proof.
  intros question loadingId. split.
  - intros Hshort. unfold handleSendMessage. fold question.
    apply Nat.ltb_lt in Hshort. now rewrite Hshort.
  - intros Hlong. pose proof (trimmed_long _ Hlong) as Hcheck. fold question in Hcheck.
    split; [exact Hcheck|].
    destruct (process_total question (ragSystem p)) as (r & w' & Hrun).
    exists r, w'. split; [exact Hrun|]. split.
    + unfold handleSendMessage. fold question.
      apply Nat.ltb_ge in Hlong. rewrite Hlong.
      cbv zeta. rewrite app_processQuery_eq, Hrun. reflexivity.
    + intros Hmiss.
      rewrite (processQuery_miss fetch visibleText toLowerCase JSON_parse
                 toLocaleDateString engine_message) in Hrun by assumption.
      rewrite answer_query_cases, Hcheck in Hrun.
      destruct (searchPosts _ _ _ question (ragSystem p)) as [[posts|e] w1].
      * destruct (no_candidates posts).
        { injection Hrun as <- _. intros E. vm_compute in E. discriminate. }
        destruct (generateResponse _ _ question _) as [r'|e] eqn:Hr.
        { injection Hrun as <- _. intros E.
          apply (compose_not_failure _ _ _ _ _ Hr). now left. }
        injection Hrun as <- _. intros E. vm_compute in E. discriminate.
      * injection Hrun as <- _. intros E. vm_compute in E. discriminate.
Qed.

End PageRuns.

(** ** Candidates the ranker cannot read *)

Lemma map_result_throws {A B} (f : A -> result B) (l : list A) (x : A) (e : exn) :
  In x l -> f x = Throw e -> exists e', map_result f l = Throw e'.
Proof.
  intros Hin Hx. induction l as [|y l IH]; [destruct Hin|].
  cbn [map_result]. destruct Hin as [->|Hin].
  - rewrite Hx. cbn [rbind]. eauto.
  - destruct (f y) as [v|e0]; cbn [rbind]; [|eauto].
    destruct (IH Hin) as (e' & ->). cbn [rbind]. eauto.
Qed.

Section Unreadable.
Variable visibleText : json -> result jsstring.
Variable toLowerCase : jsstring -> jsstring.

(** X24: candidates that are not an array (an error object or a string
    that the relay's payload parsed to, say) are ranked to nothing:
    either they count as empty, or [posts.map] is not a function and the
    [catch] returns the empty list. *)
Theorem non_array_candidates_rank_nothing (query : jsstring) (posts : json) (topK : nat) :
  (forall items, posts <> JArr items) ->
  rankRelevantPosts visibleText toLowerCase query posts topK = [].
Proof.
  intros Hshape. unfold rankRelevantPosts.
  destruct (no_candidates posts); [reflexivity|].
  destruct posts as [| | | |items|]; try reflexivity.
  now contradiction (Hshape items).
Qed.

(** X25: one [null] among the candidates empties the whole ranking:
    reading its [title] throws inside [posts.map], and the [catch]
    returns the empty list, whatever the other candidates are. *)
Theorem null_candidate_empties_ranking (query : jsstring) (items : list json) (topK : nat) :
  In JNull items ->
  rankRelevantPosts visibleText toLowerCase query (JArr items) topK = [].
Proof.
  intros Hnull. unfold rankRelevantPosts.
  destruct (no_candidates (JArr items)); [reflexivity|].
  unfold similarities_of.
  destruct (map_result_throws (post_text visibleText) items JNull TypeError Hnull eq_refl)
    as (e & ->).
  reflexivity.
Qed.

End Unreadable.

(** X24 on the error object [{code: "x"}]. *)
Lemma non_array_candidates_rank_nothing_witness :
  rankRelevantPosts Demo.visibleText lower_ascii (js "abc")
                    (JObj [(js "code", JStr (js "x"))]) 5 = [].
Proof.
  apply (non_array_candidates_rank_nothing Demo.visibleText lower_ascii (js "abc")
           (JObj [(js "code", JStr (js "x"))]) 5).
  intros items H. discriminate H.
Defined.

(** X25 on the post about [abc] followed by [null]. *)
Lemma null_candidate_empties_ranking_witness :
  rankRelevantPosts Demo.visibleText lower_ascii (js "abc")
                    (JArr [Demo.one_post; JNull]) 5 = [].
Proof.
  apply (null_candidate_empties_ranking Demo.visibleText lower_ascii (js "abc")
           [Demo.one_post; JNull] 5).
  right. left. reflexivity.
Defined.
